(** * Ongaku: a shallow embedding of src/ongaku.py

    The development follows the three classes of the program:
    [MusicPlayer] (playback session), [AudioVisualizer] (bar levels) and
    [MusicPlayerUI] (selection and viewport).  Python integers are [Z],
    Python floats are IEEE binary64 ([PrimFloat.float]), dictionaries with
    string keys are [gmap string _], lists are [list].  A call that may
    raise returns a [result]. *)

From Stdlib Require Import ZArith Lia Bool Ascii String PrimFloat Uint63.
From stdpp Require Import gmap strings list.

#[local] Set Warnings "-inexact-float".
Local Open Scope Z_scope.

(** ** Python values and built-ins used by the program *)

Module Py.

(** Outcome of a call: a returned value, or a raised [Exception]. *)
Inductive result (A : Type) : Type :=
| Ret (a : A)
| Raise.
Arguments Ret {A} a.
Arguments Raise {A}.

(** [s.startswith(p)] *)
Fixpoint starts_with (p s : string) : bool :=
  match p, s with
  | EmptyString, _ => true
  | String a p', String b s' => if Ascii.eqb a b then starts_with p' s' else false
  | String _ _, EmptyString => false
  end.

(** [sep in s] for strings. *)
Fixpoint contains (sep s : string) : bool :=
  starts_with sep s ||
  match s with
  | EmptyString => false
  | String _ s' => contains sep s'
  end.

(** [s.split(sep)] for a non-empty [sep]: left-to-right, non-overlapping.
    [skip] counts the characters of a separator still to be consumed and
    [cur] is the piece being read. *)
Fixpoint split_from (sep : string) (skip : nat) (cur s : string) : list string :=
  match s with
  | EmptyString => [cur]
  | String c s' =>
      match skip with
      | S k => split_from sep k cur s'
      | O =>
          if starts_with sep s
          then cur :: split_from sep (String.length sep - 1) EmptyString s'
          else split_from sep 0 (String.append cur (String c EmptyString)) s'
      end
  end.

Definition split (sep s : string) : list string := split_from sep 0 EmptyString s.

(** [l[-1]] on the result of a split, which is never empty. *)
Definition last_piece (l : list string) : string := List.last l EmptyString.

(** Truth value of a string: only the empty string is falsy. *)
Definition truthy (s : string) : bool :=
  match s with
  | EmptyString => false
  | String _ _ => true
  end.

(** [l[i]] with Python's negative indices; [None] is [IndexError]. *)
Definition index {A : Type} (l : list A) (i : Z) : option A :=
  if 0 <=? i then l !! Z.to_nat i
  else if - Z.of_nat (length l) <=? i then l !! Z.to_nat (Z.of_nat (length l) + i)
  else None.

(** [float(z)] for an integer with [|z| < 2^63]: [Uint63.of_Z] wraps
    beyond, where Python still rounds to the nearest float.  The integers
    converted here are a volume in percent, an elapsed time that libvlc
    holds in 64 bits and bar indices. *)
Definition float_of_Z (z : Z) : float :=
  if z <? 0 then PrimFloat.opp (PrimFloat.of_uint63 (Uint63.of_Z (- z)))
  else PrimFloat.of_uint63 (Uint63.of_Z z).

(** [min(a, b)] and [max(a, b)] on floats, as the interpreter computes
    them: the second argument wins only when it compares strictly. *)
Definition fmin (a b : float) : float := if PrimFloat.ltb b a then b else a.
Definition fmax (a b : float) : float := if PrimFloat.ltb a b then b else a.

End Py.

Export Py(result, Ret, Raise).

(** ** AudioVisualizer *)

Module AudioVisualizer.

(** [vlc.State] as the program distinguishes it. *)
Inductive VlcState : Type :=
| Playing
| Paused
| Stopped
| Ended
| OtherState.

(** What the VLC media player answers during one [update_from_vlc] call.
    [get_media] answers [str(current_media)], or [None] when no media is
    bound. *)
Record MediaPlayerObs : Type := {
  get_state : result VlcState;
  audio_get_volume : Z;
  get_time : Z;
  get_media : result (option string)
}.

Record t : Type := {
  bars : nat;
  frequency_bands : list float;
  current_track : option string;
  needs_redraw : bool
}.

(** [__init__(bars)] *)
Definition init (n : nat) : t :=
  {| bars := n; frequency_bands := replicate n 0%float;
     current_track := None; needs_redraw := false |}.

Definition with_bands (v : t) (l : list float) : t :=
  {| bars := bars v; frequency_bands := l;
     current_track := current_track v; needs_redraw := needs_redraw v |}.

Definition with_track (v : t) (m : option string) : t :=
  {| bars := bars v; frequency_bands := frequency_bands v;
     current_track := m; needs_redraw := needs_redraw v |}.

(** [for i in range(len(self.frequency_bands)): self.frequency_bands[i] = 0.0] *)
Definition zero_bands (v : t) : t :=
  with_bands v (replicate (length (frequency_bands v)) 0%float).

(** [for i in range(len(self.frequency_bands)): self.frequency_bands[i] *= 0.92] *)
Definition fade_bands (v : t) : t :=
  with_bands v (List.map (fun x => (x * 0.92)%float) (frequency_bands v)).

(** [clear_immediately] *)
Definition clear_immediately (v : t) : t :=
  {| bars := bars v;
     frequency_bands := replicate (length (frequency_bands v)) 0%float;
     current_track := None; needs_redraw := true |}.

Section Synthesis.

(** [math.sin] and [math.cos]. *)
Variables sin cos : float -> float.

(** The target level of bar [i], lines 456-477. *)
Definition target (nbars : nat) (volume time_ms : Z) (i : nat) : float :=
  let base_amplitude := (Py.float_of_Z volume / 100)%float in
  let time_factor := (Py.float_of_Z time_ms / 1000 * 2)%float in
  let fi := Py.float_of_Z (Z.of_nat i) in
  let freq_ratio := (fi / Py.float_of_Z (Z.of_nat nbars - 1))%float in
  let raw :=
    if PrimFloat.ltb freq_ratio 0.3 then
      (0.7 + sin (time_factor * 1.2 + fi * 0.5) * 0.4 + sin (time_factor * 0.8) * 0.3)%float
    else if PrimFloat.ltb freq_ratio 0.7 then
      (0.5 + sin (time_factor * 1.8 + fi * 0.3) * 0.3 + cos (time_factor * 1.1) * 0.2)%float
    else
      (0.4 + sin (time_factor * 2.5 + fi * 0.8) * 0.4 + sin (time_factor * 3.0) * 0.2)%float in
  Py.fmax 0 (Py.fmin 1 (raw * base_amplitude)%float).

(** One bar of the attack/release filter, lines 480-486. *)
Definition smooth (tgt cur : float) : float :=
  let smoothing := if PrimFloat.ltb cur tgt then 0.6%float else 0.2%float in
  (smoothing * tgt + (1 - smoothing) * cur)%float.

(** The loop [for i in range(self.bars)], run on the indices [idx]:
    [ZeroDivisionError] when [bars = 1], [IndexError] when a bar is
    missing from [frequency_bands]. *)
Fixpoint synth_loop (nbars : nat) (volume time_ms : Z) (idx : list nat)
    (bands : list float) : result (list float) :=
  match idx with
  | [] => Ret bands
  | i :: rest =>
      if (Z.of_nat nbars - 1 =? 0) then Raise
      else match bands !! i with
           | None => Raise
           | Some cur =>
               synth_loop nbars volume time_ms rest
                 (<[i := smooth (target nbars volume time_ms i) cur]> bands)
           end
  end.

(** [update_from_vlc(player)]; [player = None] is the call
    [update_from_vlc(None)].  On a media player object the attribute
    [player.is_playing] is a bound method, hence truthy, so the first test
    only catches [None]. *)
Definition update_from_vlc (player : option MediaPlayerObs) (v : t) : result t :=
  match player with
  | None => Ret (with_track (zero_bands v) None)
  | Some p =>
      match get_state p with
      | Raise => Ret (zero_bands v)
      | Ret Paused => Ret (fade_bands v)
      | Ret Playing =>
          if (audio_get_volume p <? 0) || (get_time p <=? 0) then Ret v
          else
            let changed :=
              match get_media p with
              | Ret media_id =>
                  if decide (current_track v = media_id) then None else Some media_id
              | Raise => None
              end in
            match changed with
            | Some media_id => Ret (with_track (zero_bands v) media_id)
            | None =>
                match synth_loop (bars v) (audio_get_volume p) (get_time p)
                        (seq 0 (bars v)) (frequency_bands v) with
                | Ret l => Ret (with_bands v l)
                | Raise => Raise
                end
            end
      | Ret _ => Ret (zero_bands v)
      end
  end.

End Synthesis.

(** [get_bars(max_height)] is not needed by the properties below. *)

End AudioVisualizer.

(** ** MusicPlayer *)

Module MusicPlayer.

(** A track as [search_youtube] builds it. *)
Record Track : Type := {
  track_id : string;
  title : string;
  url : string;
  duration : Z;
  uploader : string
}.

(** A playlist as [create_playlist] builds it (the creation time stamp is
    not read by the player). *)
Record Playlist : Type := {
  playlist_id : string;
  name : string;
  tracks : list Track
}.

(** The VLC media player as the session commands it. *)
Record MediaPlayer : Type := {
  media : option string;
  audio_volume : Z;
  started : bool
}.

Definition vlc_stop (p : MediaPlayer) : MediaPlayer :=
  {| media := media p; audio_volume := audio_volume p; started := false |}.

Definition vlc_set_volume (v : Z) (p : MediaPlayer) : MediaPlayer :=
  {| media := media p; audio_volume := v; started := started p |}.

(** [set_media(media); audio_set_volume(v); play()] *)
Definition vlc_load_and_play (m : string) (v : Z) (p : MediaPlayer) : MediaPlayer :=
  {| media := Some m; audio_volume := v; started := true |}.

(** The session.  [__init__] either binds [player] or exits the process,
    so every [if self.player] test of the class succeeds.  Fields that the
    operations below never touch (search results, favorites, file paths)
    are left out. *)
Record t : Type := {
  player : MediaPlayer;
  is_playing : bool;
  current_track : option string;
  current_duration : Z;
  stream_cache : gmap string string;
  volume : Z;
  playlists : list Playlist;
  current_playlist : option Playlist;
  current_playlist_index : Z;
  visualizer : option AudioVisualizer.t
}.

(** [__init__], with the playlists read from disk. *)
Definition init (pls : list Playlist) : t :=
  {| player := {| media := None; audio_volume := 100; started := false |};
     is_playing := false; current_track := None; current_duration := 0;
     stream_cache := ∅; volume := 100; playlists := pls;
     current_playlist := None; current_playlist_index := -1;
     visualizer := None |}.

(** *** Volume *)

Definition set_volume (v : Z) (s : t) : t :=
  let v' := Z.max 0 (Z.min 100 v) in
  {| player := vlc_set_volume v' (player s);
     is_playing := is_playing s; current_track := current_track s;
     current_duration := current_duration s; stream_cache := stream_cache s;
     volume := v'; playlists := playlists s;
     current_playlist := current_playlist s;
     current_playlist_index := current_playlist_index s;
     visualizer := visualizer s |}.

Definition volume_up (s : t) : t := set_volume (volume s + 5) s.

Definition volume_down (s : t) : t := set_volume (volume s - 5) s.

(** The three volume calls, for sequences of them. *)
Inductive VolumeCall : Type :=
| SetVolume (v : Z)
| VolumeUp
| VolumeDown.

Definition volume_call (c : VolumeCall) (s : t) : t :=
  match c with
  | SetVolume v => set_volume v s
  | VolumeUp => volume_up s
  | VolumeDown => volume_down s
  end.

(** The volume invariant. *)
Definition volume_in_range (s : t) : Prop := 0 <= volume s <= 100.

(** The sessions reached after each call of a sequence, in order. *)
Fixpoint volume_trace (cs : list VolumeCall) (s : t) : list t :=
  match cs with
  | [] => []
  | c :: rest => let s' := volume_call c s in s' :: volume_trace rest s'
  end.

(** *** Elapsed time *)

(** [get_current_time]; [time_ms] is what [player.get_time()] answers. *)
Definition get_current_time (time_ms : Z) (s : t) : Z :=
  if is_playing s then
    if negb (time_ms =? -1) then
      let current_seconds := time_ms / 1000 in
      if 0 <? current_duration s then Z.min current_seconds (current_duration s)
      else current_seconds
    else 0
  else 0.

(** *** Stopping *)

Definition stop (clear_playlist : bool) (s : t) : t :=
  {| player := vlc_stop (player s);
     is_playing := false; current_track := None; current_duration := 0;
     stream_cache := stream_cache s; volume := volume s;
     playlists := playlists s;
     current_playlist := if clear_playlist then None else current_playlist s;
     current_playlist_index :=
       if clear_playlist then -1 else current_playlist_index s;
     visualizer := visualizer s |}.

Definition clear_visualizer (s : t) : t :=
  {| player := player s;
     is_playing := is_playing s; current_track := current_track s;
     current_duration := current_duration s; stream_cache := stream_cache s;
     volume := volume s; playlists := playlists s;
     current_playlist := current_playlist s;
     current_playlist_index := current_playlist_index s;
     visualizer := AudioVisualizer.clear_immediately <$> visualizer s |}.

Definition with_cache (c : gmap string string) (s : t) : t :=
  {| player := player s;
     is_playing := is_playing s; current_track := current_track s;
     current_duration := current_duration s; stream_cache := c;
     volume := volume s; playlists := playlists s;
     current_playlist := current_playlist s;
     current_playlist_index := current_playlist_index s;
     visualizer := visualizer s |}.

Definition with_loaded (ttl : string) (dur : Z) (s : t) : t :=
  {| player := player s;
     is_playing := is_playing s; current_track := Some ttl;
     current_duration := dur; stream_cache := stream_cache s;
     volume := volume s; playlists := playlists s;
     current_playlist := current_playlist s;
     current_playlist_index := current_playlist_index s;
     visualizer := visualizer s |}.

Definition with_started (stream_url : string) (s : t) : t :=
  {| player := vlc_load_and_play stream_url (volume s) (player s);
     is_playing := true; current_track := current_track s;
     current_duration := current_duration s; stream_cache := stream_cache s;
     volume := volume s; playlists := playlists s;
     current_playlist := current_playlist s;
     current_playlist_index := current_playlist_index s;
     visualizer := visualizer s |}.

Definition with_context (pl : option Playlist) (i : Z) (s : t) : t :=
  {| player := player s;
     is_playing := is_playing s; current_track := current_track s;
     current_duration := current_duration s; stream_cache := stream_cache s;
     volume := volume s; playlists := playlists s;
     current_playlist := pl;
     current_playlist_index := i;
     visualizer := visualizer s |}.

Definition with_player (p : MediaPlayer) (s : t) : t :=
  {| player := p;
     is_playing := is_playing s; current_track := current_track s;
     current_duration := current_duration s; stream_cache := stream_cache s;
     volume := volume s; playlists := playlists s;
     current_playlist := current_playlist s;
     current_playlist_index := current_playlist_index s;
     visualizer := visualizer s |}.

(** The key under which a stream locator is cached. *)
Definition video_id (u : string) : string :=
  if Py.contains "watch?v=" u then Py.last_piece (Py.split "watch?v=" u)
  else Py.last_piece (Py.split "/" u).

Section Backends.

(** The resolver: what [ydl.extract_info(url)] yields as [info.get('url')];
    [None] when it yields nothing or raises (the exception is caught in
    [extract_stream_url]). *)
Variable ydl_extract : string -> option string.

(** Whether the VLC calls that load a locator raise.  The exception is
    placed at [media_new], the first of them; the session fields written
    before it are the same for a later one. *)
Variable vlc_raises : string -> bool.

Definition extract_stream_url (u : string) (s : t) : option string * t :=
  match stream_cache s !! video_id u with
  | Some cached => (Some cached, s)
  | None =>
      match ydl_extract u with
      | Some stream_url =>
          if Py.truthy stream_url
          then (Some stream_url, with_cache (<[video_id u := stream_url]> (stream_cache s)) s)
          else (Some stream_url, s)
      | None => (None, s)
      end
  end.

(** Whether [not stream_url] holds for the resolver's answer. *)
Definition no_locator (r : option string) : bool :=
  match r with
  | Some stream_url => negb (Py.truthy stream_url)
  | None => true
  end.

Definition play_track (u ttl : string) (dur : Z) (from_playlist : bool) (s : t)
    : result bool * t :=
  let s1 := clear_visualizer (stop (negb from_playlist) s) in
  let '(r, s2) := extract_stream_url u s1 in
  match r with
  | Some stream_url =>
      if Py.truthy stream_url then
        let s3 := with_loaded ttl dur s2 in
        if vlc_raises stream_url then (Raise, s3)
        else (Ret true, with_started stream_url s3)
      else (Ret false, s2)
  | None => (Ret false, s2)
  end.

Definition find_playlist (pid : string) (s : t) : option Playlist :=
  List.find (fun p => String.eqb (playlist_id p) pid) (playlists s).

Definition play_playlist_track (pid : string) (track_index : Z) (s : t)
    : result bool * t :=
  match find_playlist pid s with
  | None => (Ret false, s)
  | Some pl =>
      if Z.of_nat (length (tracks pl)) <=? track_index then (Ret false, s)
      else
        let s1 := with_context (Some pl) track_index s in
        match Py.index (tracks pl) track_index with
        | None => (Raise, s1)
        | Some track => play_track (url track) (title track) (duration track) true s1
        end
  end.

(** One activation of [play_next_in_playlist], up to its recursive call. *)
Inductive Attempt : Type :=
| Done (r : result bool) (s : t)
| Retry (s : t).

Definition play_next_attempt (s : t) : Attempt :=
  match current_playlist s with
  | None => Done (Ret false) s
  | Some pl =>
      match tracks pl with
      | [] => Done (Ret false) s
      | _ :: _ =>
          let n := Z.of_nat (length (tracks pl)) in
          let i := (current_playlist_index s + 1) mod n in
          let s1 := with_context (Some pl) i s in
          match Py.index (tracks pl) i with
          | None => Done Raise s1
          | Some track =>
              let s2 := with_player (vlc_stop (player s1)) s1 in
              match play_track (url track) (title track) (duration track) true s2 with
              | (Ret success, s3) => Done (Ret success) s3
              | (Raise, s3) => if 1 <? n then Retry s3 else Done (Ret false) s3
              end
          end
      end
  end.

(** [play_next_in_playlist]: the recursion of the source, with [fuel]
    bounding the number of activations; [None] means the bound was
    reached with the recursion still going. *)
Fixpoint play_next_in_playlist (fuel : nat) (s : t) : option (result bool * t) :=
  match fuel with
  | O => None
  | S fuel' =>
      match play_next_attempt s with
      | Done r s' => Some (r, s')
      | Retry s' => play_next_in_playlist fuel' s'
      end
  end.

(** The session an activation leaves behind. *)
Definition attempt_state (a : Attempt) : t :=
  match a with
  | Done _ s => s
  | Retry s => s
  end.

(** [k] successive calls of [play_next_in_playlist], each with [fuel]:
    the cursor after each call, in order; [None] when a call exhausts its
    fuel. *)
Fixpoint cursors_visited (fuel k : nat) (s : t) : option (list Z) :=
  match k with
  | O => Some []
  | S k' =>
      match play_next_in_playlist fuel s with
      | None => None
      | Some (_, s') =>
          match cursors_visited fuel k' s' with
          | None => None
          | Some l => Some (current_playlist_index s' :: l)
          end
      end
  end.

End Backends.

(** *** Invariants of the session *)

(** Every cached locator is truthy: [extract_stream_url] caches no other. *)
Definition cache_ok (s : t) : Prop :=
  forall k v, stream_cache s !! k = Some v -> Py.truthy v = true.

(** While a playlist is bound, the cursor indexes one of its tracks. *)
Definition cursor_ok (s : t) : Prop :=
  forall pl, current_playlist s = Some pl ->
    0 <= current_playlist_index s < Z.of_nat (length (tracks pl)).

(** While a playlist is bound, the loaded track is its track at the
    cursor. *)
Definition launched_from_context (s : t) : Prop :=
  forall pl, current_playlist s = Some pl ->
    exists track, tracks pl !! Z.to_nat (current_playlist_index s) = Some track /\
                  current_track s = Some (title track).

(** While a playlist is bound, a loaded track, if there is one, is its
    track at the cursor. *)
Definition loaded_at_cursor (s : t) : Prop :=
  forall pl ttl, current_playlist s = Some pl -> current_track s = Some ttl ->
    exists track, tracks pl !! Z.to_nat (current_playlist_index s) = Some track /\
                  title track = ttl.

(** The continuation-context invariant in its strict reading. *)
Definition context_invariant (s : t) : Prop :=
  cursor_ok s /\ launched_from_context s.

End MusicPlayer.

(** ** MusicPlayerUI: selection and viewport *)

Module MusicPlayerUI.

(** The fields of the user interface that list navigation reads and
    writes. *)
Record t : Type := {
  selected_index : Z;
  prev_selected_index : Z;
  scroll_offset : Z;
  visible_lines : Z;
  is_loading_more : bool
}.

Definition with_scroll (o : Z) (u : t) : t :=
  {| selected_index := selected_index u;
     prev_selected_index := prev_selected_index u;
     scroll_offset := o;
     visible_lines := visible_lines u;
     is_loading_more := is_loading_more u |}.

(** [self.prev_selected_index = self.selected_index;
     self.selected_index = new_index] *)
Definition select (new_index : Z) (u : t) : t :=
  {| selected_index := new_index;
     prev_selected_index := selected_index u;
     scroll_offset := scroll_offset u;
     visible_lines := visible_lines u;
     is_loading_more := is_loading_more u |}.

Definition with_loading (b : bool) (u : t) : t :=
  {| selected_index := selected_index u;
     prev_selected_index := prev_selected_index u;
     scroll_offset := scroll_offset u;
     visible_lines := visible_lines u;
     is_loading_more := b |}.

(** [adjust_viewport]: the flag says whether a full redraw is needed. *)
Definition adjust_viewport (u : t) : bool * t :=
  if selected_index u <? scroll_offset u then
    (true, with_scroll (selected_index u) u)
  else if scroll_offset u + visible_lines u <=? selected_index u then
    (true, with_scroll (selected_index u - visible_lines u + 1) u)
  else (false, u).

(** The two navigation keys. *)
Inductive Key : Type :=
| KEY_UP
| KEY_DOWN.

(** [handle_results_input] on the arrow keys; [len_results] is
    [len(self.player.search_results)].  Pressing down on the last result
    starts the background fetch and returns without moving. *)
Definition handle_results_input (len_results : Z) (key : Key) (u : t) : bool * t :=
  match key with
  | KEY_UP =>
      let new_index := Z.max 0 (selected_index u - 1) in
      if negb (new_index =? selected_index u) then adjust_viewport (select new_index u)
      else (false, u)
  | KEY_DOWN =>
      if (selected_index u =? len_results - 1) && negb (is_loading_more u) then
        (false, with_loading true u)
      else
        let new_index := Z.min (len_results - 1) (selected_index u + 1) in
        if negb (new_index =? selected_index u) then adjust_viewport (select new_index u)
        else (false, u)
  end.

(** The interface states after each key of a sequence, in order. *)
Fixpoint navigate (len_results : Z) (keys : list Key) (u : t) : list t :=
  match keys with
  | [] => []
  | k :: rest =>
      let u' := snd (handle_results_input len_results k u) in
      u' :: navigate len_results rest u'
  end.

(** The state in which the Enter key of [handle_search_input] enters the
    results list of a search that found something (lines 1193-1197:
    selection 0, previous selection -1, offset 0), with [h] visible lines
    and no fetch pending.  The Escape key of the same handler enters the
    results list too, without these assignments: see
    [SearchEntry.handle_search_input]. *)
Definition enter_results (h : Z) : t :=
  {| selected_index := 0; prev_selected_index := -1; scroll_offset := 0;
     visible_lines := h; is_loading_more := false |}.

(** The viewport invariant for a list of [m] items. *)
Definition viewport_ok (m : Z) (u : t) : Prop :=
  scroll_offset u <= selected_index u < scroll_offset u + visible_lines u /\
  0 <= scroll_offset u <= Z.max 0 (m - visible_lines u).

End MusicPlayerUI.

(** ** Concrete sessions and backends used as test inputs *)

Module Samples.

Import MusicPlayer.

Local Open Scope string_scope.

(** A session that plays a track of 125 seconds. *)
Definition playing_session : t :=
  {| player := {| media := Some "stream"; audio_volume := 100; started := true |};
     is_playing := true; current_track := Some "Song A";
     current_duration := 125; stream_cache := ∅; volume := 100;
     playlists := []; current_playlist := None; current_playlist_index := -1;
     visualizer := None |}.

Definition track_a : Track :=
  {| track_id := "a"; title := "Song A"; url := "https://youtube.com/watch?v=a";
     duration := 125; uploader := "U" |}.

Definition track_b : Track :=
  {| track_id := "b"; title := "Song B"; url := "https://youtube.com/watch?v=b";
     duration := 0; uploader := "U" |}.

Definition track_c : Track :=
  {| track_id := "c"; title := "Song C"; url := "https://youtube.com/watch?v=c";
     duration := 61; uploader := "U" |}.

Definition mix : Playlist :=
  {| playlist_id := "p1"; name := "Mix"; tracks := [track_a; track_b; track_c] |}.

Definition duo : Playlist :=
  {| playlist_id := "p2"; name := "Duo"; tracks := [track_a; track_b] |}.

Definition solo : Playlist :=
  {| playlist_id := "p3"; name := "Solo"; tracks := [track_a] |}.

(** A session that plays track [i] of playlist [pl], launched from it. *)
Definition bound_session (pl : Playlist) (i : Z) (ttl : string) (d : Z) : t :=
  {| player := {| media := Some "stream"; audio_volume := 100; started := true |};
     is_playing := true; current_track := Some ttl;
     current_duration := d; stream_cache := ∅; volume := 100;
     playlists := [mix; duo; solo]; current_playlist := Some pl;
     current_playlist_index := i; visualizer := None |}.

(** Resolvers: one that resolves nothing, one that resolves every URL,
    one that resolves every URL but that of [track_b]. *)
Definition resolve_none (u : string) : option string := None.

Definition resolve_all (u : string) : option string := Some ("stream:" +:+ u).

Definition resolve_all_but_b (u : string) : option string :=
  if String.eqb u (url track_b) then None else Some ("stream:" +:+ u).

(** VLC backends: one that never raises, one that always does, one that
    raises on the locator of [track_b] only. *)
Definition vlc_fine (loc : string) : bool := false.

Definition vlc_broken (loc : string) : bool := true.

Definition vlc_breaks_b (loc : string) : bool :=
  String.eqb loc ("stream:" +:+ url track_b).

End Samples.

(** * Properties *)

(** ** Python built-ins: sanity checks on concrete strings *)

Module PyFacts.

Example video_id_watch :
  MusicPlayer.video_id "https://youtube.com/watch?v=abc123" = "abc123"%string.
Proof. reflexivity. Qed.

Example video_id_path :
  MusicPlayer.video_id "https://youtu.be/xyz" = "xyz"%string.
Proof. reflexivity. Qed.

Example split_keeps_empty_pieces :
  Py.split "/" "a//b/" = ["a"; ""; "b"; ""]%string.
Proof. reflexivity. Qed.

Example index_negative : Py.index [10; 20; 30] (-1) = Some 30.
Proof. reflexivity. Qed.

Example index_out_of_range :
  Py.index [10; 20; 30] 3 = None /\ Py.index [10; 20; 30] (-4) = None.
Proof. split; reflexivity. Qed.

End PyFacts.

(** ** The playback session *)

Module PlayerFacts.

Import MusicPlayer.

(** *** Volume *)

Lemma set_volume_in_range (v : Z) (s : t) : volume_in_range (set_volume v s).
Proof. unfold volume_in_range, set_volume; simpl; lia. Qed.

Lemma volume_call_in_range (c : VolumeCall) (s : t) :
  volume_in_range (volume_call c s).
Proof. destruct c; apply set_volume_in_range. Qed.

Lemma volume_trace_in_range (cs : list VolumeCall) :
  forall s, Forall volume_in_range (volume_trace cs s).
Proof.
  induction cs as [|c cs IH]; intros s; simpl.
  - constructor.
  - constructor; [apply volume_call_in_range | apply IH].
Qed.

Lemma volume_up_then_down (s : t) :
  0 <= volume s -> volume s + 5 <= 100 ->
  volume (volume_down (volume_up s)) = volume s.
Proof. intros H0 H1. unfold volume_down, volume_up, set_volume; simpl. lia. Qed.

(** C7. Starting from a volume in [0, 100], the volume lies in [0, 100]
    after every call of any finite sequence of [set_volume], [volume_up]
    and [volume_down] calls; and from a value in [0, 100] at which the +5
    step does not clamp, [volume_up] then [volume_down] gives the original
    volume back. *)
Theorem volume_invariant_and_round_trip (s : t) (cs : list VolumeCall) :
  volume_in_range s ->
  Forall volume_in_range (volume_trace cs s) /\
  (volume s + 5 <= 100 -> volume (volume_down (volume_up s)) = volume s).
Proof.
  intros [H0 H1]. split.
  - apply volume_trace_in_range.
  - intros H5. now apply volume_up_then_down.
Qed.

Lemma volume_invariant_and_round_trip_witness :
  volume_in_range (init []) /\
  Forall volume_in_range
    (volume_trace [VolumeUp; SetVolume 250; VolumeDown; SetVolume (-7)] (set_volume 40 (init []))) /\
  volume (volume_down (volume_up (set_volume 40 (init [])))) = 40.
Proof.
  split; [unfold volume_in_range; simpl; lia|].
  assert (R : volume_in_range (set_volume 40 (init [])))
    by (unfold volume_in_range; simpl; lia).
  split.
  - exact (proj1 (volume_invariant_and_round_trip (set_volume 40 (init []))
                    [VolumeUp; SetVolume 250; VolumeDown; SetVolume (-7)] R)).
  - apply (proj2 (volume_invariant_and_round_trip (set_volume 40 (init [])) [] R)).
    simpl; lia.
Defined.

(** *** Elapsed time *)

(** C6. In a playing session with known duration [d > 0], when the
    backend reports a known elapsed time ([time_ms] other than -1, that is
    [e = time_ms // 1000] seconds), [get_current_time] returns
    [min(e, d)]. *)
Theorem get_current_time_clamped (s : t) (time_ms d : Z) :
  is_playing s = true ->
  current_duration s = d ->
  0 < d ->
  time_ms <> -1 ->
  get_current_time time_ms s = Z.min (time_ms / 1000) d.
Proof.
  intros Hp Hd Hpos Hk. unfold get_current_time.
  rewrite Hp, Hd.
  destruct (Z.eqb_spec time_ms (-1)) as [E|_]; [contradiction|]. simpl.
  destruct (Z.ltb_spec 0 d); [reflexivity | lia].
Qed.

Lemma get_current_time_clamped_witness :
  get_current_time 130999 Samples.playing_session = 125 /\
  get_current_time 61500 Samples.playing_session = 61.
Proof.
  split.
  - rewrite (get_current_time_clamped Samples.playing_session 130999 125);
      [reflexivity | reflexivity | reflexivity | lia | lia].
  - rewrite (get_current_time_clamped Samples.playing_session 61500 125);
      [reflexivity | reflexivity | reflexivity | lia | lia].
Defined.

(** C10. When the session is not playing, or the backend reports its
    elapsed time as unknown (-1), [get_current_time] returns 0; and, the
    backend's answer being -1 or a time that is not negative, the reported
    elapsed time is not negative in every session state. *)
Theorem get_current_time_zero_and_nonneg (s : t) (time_ms : Z) :
  (is_playing s = false \/ time_ms = -1 -> get_current_time time_ms s = 0) /\
  (-1 <= time_ms -> 0 <= get_current_time time_ms s).
Proof.
  unfold get_current_time. split.
  - intros [Hp | Hu].
    + now rewrite Hp.
    + subst time_ms. simpl. now destruct (is_playing s).
  - intros Hge. destruct (is_playing s); [|lia].
    destruct (Z.eqb_spec time_ms (-1)) as [E|N]; simpl; [lia|].
    assert (0 <= time_ms / 1000) by (apply Z.div_pos; lia).
    destruct (Z.ltb_spec 0 (current_duration s)); lia.
Qed.

Lemma get_current_time_zero_and_nonneg_witness :
  get_current_time (-1) Samples.playing_session = 0 /\
  0 <= get_current_time 61500 Samples.playing_session.
Proof.
  split.
  - apply (proj1 (get_current_time_zero_and_nonneg Samples.playing_session (-1))).
    right; reflexivity.
  - apply (proj2 (get_current_time_zero_and_nonneg Samples.playing_session 61500)). lia.
Defined.

(** *** Resolution and [play_track] *)

Lemma with_cache_same (s : t) : with_cache (stream_cache s) s = s.
Proof. now destruct s. Qed.

Section Backends.

Variable ydl_extract : string -> option string.
Variable vlc_raises : string -> bool.

Local Abbreviation extract_stream_url := (extract_stream_url ydl_extract).
Local Abbreviation play_track := (play_track ydl_extract vlc_raises).
Local Abbreviation play_playlist_track := (play_playlist_track ydl_extract vlc_raises).
Local Abbreviation play_next_attempt := (play_next_attempt ydl_extract vlc_raises).
Local Abbreviation play_next_in_playlist := (play_next_in_playlist ydl_extract vlc_raises).

(** The resolver only ever writes the cache. *)
Lemma extract_touches_cache_only (u : string) (s : t) :
  exists c, snd (extract_stream_url u s) = with_cache c s /\
            (cache_ok s -> cache_ok (with_cache c s)).
Proof.
  unfold MusicPlayer.extract_stream_url.
  destruct (stream_cache s !! video_id u) as [cached|] eqn:Hc.
  - exists (stream_cache s). rewrite with_cache_same. now split.
  - destruct (ydl_extract u) as [loc|].
    + destruct (Py.truthy loc) eqn:Ht.
      * exists (<[video_id u := loc]> (stream_cache s)). split; [reflexivity|].
        intros Hok k v. simpl. rewrite lookup_insert.
        case_decide; [intros [= <-]; exact Ht | apply Hok].
      * exists (stream_cache s). rewrite with_cache_same. now split.
    + exists (stream_cache s). rewrite with_cache_same. now split.
Qed.

(** A failed resolution writes nothing at all. *)
Lemma extract_failure_is_pure (u : string) (s : t) :
  no_locator (fst (extract_stream_url u s)) = true ->
  snd (extract_stream_url u s) = s.
Proof.
  unfold MusicPlayer.extract_stream_url.
  destruct (stream_cache s !! video_id u); [reflexivity|].
  destruct (ydl_extract u) as [loc|]; [|reflexivity].
  destruct (Py.truthy loc) eqn:Ht; [|reflexivity].
  simpl. now rewrite Ht.
Qed.

(** The answer of the resolver depends on the session through the cache
    only. *)
Lemma extract_answer_cache (u : string) (s s' : t) :
  stream_cache s' = stream_cache s ->
  fst (extract_stream_url u s') = fst (extract_stream_url u s).
Proof.
  intros E. unfold MusicPlayer.extract_stream_url. rewrite E.
  destruct (stream_cache s !! video_id u); [reflexivity|].
  destruct (ydl_extract u) as [loc|]; [|reflexivity].
  now destruct (Py.truthy loc).
Qed.

(** With a sound cache, a resolver that answers a locator for [u] makes
    [extract_stream_url] answer one. *)
Lemma extract_success (u : string) (s : t) :
  cache_ok s ->
  (exists loc, ydl_extract u = Some loc /\ Py.truthy loc = true) ->
  exists loc, fst (extract_stream_url u s) = Some loc /\ Py.truthy loc = true.
Proof.
  intros Hok (loc & Hy & Ht). unfold MusicPlayer.extract_stream_url.
  destruct (stream_cache s !! video_id u) as [cached|] eqn:Hc.
  - exists cached. split; [reflexivity | exact (Hok _ _ Hc)].
  - rewrite Hy, Ht. now exists loc.
Qed.

(** [play_track], branch by branch. *)
Lemma play_track_unfold (u ttl : string) (d : Z) (fp : bool) (s : t) :
  let s1 := clear_visualizer (stop (negb fp) s) in
  let s2 := snd (extract_stream_url u s1) in
  play_track u ttl d fp s =
  match fst (extract_stream_url u s1) with
  | Some loc =>
      if Py.truthy loc then
        if vlc_raises loc then (Raise, with_loaded ttl d s2)
        else (Ret true, with_started loc (with_loaded ttl d s2))
      else (Ret false, s2)
  | None => (Ret false, s2)
  end.
Proof.
  simpl. unfold MusicPlayer.play_track.
  destruct (MusicPlayer.extract_stream_url ydl_extract u
              (clear_visualizer (stop (negb fp) s))) as [r s2]. reflexivity.
Qed.

(** What [play_track] does to the continuation context, to the playlists
    and to the cache invariant, whatever its outcome. *)
Lemma play_track_frame (u ttl : string) (d : Z) (fp : bool) (s : t) :
  let s' := snd (play_track u ttl d fp s) in
  current_playlist s' = (if fp then current_playlist s else None) /\
  current_playlist_index s' = (if fp then current_playlist_index s else -1) /\
  playlists s' = playlists s /\
  volume s' = volume s /\
  (cache_ok s -> cache_ok s').
Proof.
  simpl. rewrite play_track_unfold.
  destruct (extract_touches_cache_only u (clear_visualizer (stop (negb fp) s)))
    as (c & -> & Hc).
  assert (Hok : cache_ok s -> cache_ok (clear_visualizer (stop (negb fp) s)))
    by (intros H; exact H).
  destruct (fst (extract_stream_url u _)) as [loc|];
    [destruct (Py.truthy loc); [destruct (vlc_raises loc)|]|];
    simpl; destruct fp; simpl; repeat split; auto.
Qed.

(** The track fields after [play_track], by outcome. *)
Lemma play_track_loaded (u ttl : string) (d : Z) (fp : bool) (s : t) :
  let s' := snd (play_track u ttl d fp s) in
  match fst (play_track u ttl d fp s) with
  | Ret true => current_track s' = Some ttl /\ current_duration s' = d /\ is_playing s' = true
  | Ret false => current_track s' = None /\ current_duration s' = 0 /\ is_playing s' = false
  | Raise => current_track s' = Some ttl /\ current_duration s' = d /\ is_playing s' = false
  end.
Proof.
  simpl. rewrite play_track_unfold.
  destruct (extract_touches_cache_only u (clear_visualizer (stop (negb fp) s)))
    as (c & -> & _).
  destruct (fst (extract_stream_url u _)) as [loc|];
    [destruct (Py.truthy loc); [destruct (vlc_raises loc)|]|];
    simpl; auto.
Qed.

(** C1 (amended). If [play_track] fails because stream resolution returns
    no locator, it returns [False] and leaves the session stopped: no
    current track, duration 0, playing flag false; the continuation
    context is what it was when [from_playlist] is true and is cleared
    (no playlist, cursor -1) when it is false.  Volume, playlists and the
    locator cache are what they were. *)
Theorem play_track_failure_stops (u ttl : string) (d : Z) (fp : bool) (s : t) :
  no_locator (fst (extract_stream_url u s)) = true ->
  let s' := snd (play_track u ttl d fp s) in
  fst (play_track u ttl d fp s) = Ret false /\
  s' = clear_visualizer (stop (negb fp) s) /\
  current_track s' = None /\
  current_duration s' = 0 /\
  is_playing s' = false /\
  current_playlist s' = (if fp then current_playlist s else None) /\
  current_playlist_index s' = (if fp then current_playlist_index s else -1) /\
  volume s' = volume s /\ playlists s' = playlists s /\
  stream_cache s' = stream_cache s.
Proof.
  intros Hno. simpl.
  assert (Hno1 : no_locator (fst (extract_stream_url u
                    (clear_visualizer (stop (negb fp) s)))) = true).
  { rewrite (extract_answer_cache u s); [exact Hno | reflexivity]. }
  rewrite play_track_unfold.
  rewrite (extract_failure_is_pure _ _ Hno1).
  destruct (fst (extract_stream_url u (clear_visualizer (stop (negb fp) s))))
    as [loc|]; simpl in Hno1.
  - destruct (Py.truthy loc); [discriminate|]. simpl.
    destruct fp; repeat split; reflexivity.
  - simpl. destruct fp; repeat split; reflexivity.
Qed.

(** *** [play_next_in_playlist] *)

Lemma index_in_range {A : Type} (l : list A) (i : Z) :
  0 <= i < Z.of_nat (length l) ->
  Py.index l i = l !! Z.to_nat i /\ is_Some (l !! Z.to_nat i).
Proof.
  intros Hi. unfold Py.index.
  destruct (Z.leb_spec 0 i); [|lia]. split; [reflexivity|].
  apply lookup_lt_is_Some. lia.
Qed.

Lemma next_cursor_in_range (c : Z) (n : nat) :
  n <> O -> 0 <= (c + 1) mod Z.of_nat n < Z.of_nat n.
Proof. intros Hn. apply Z.mod_pos_bound. lia. Qed.

(** One activation on a bound, non-empty playlist. *)
Lemma play_next_attempt_unfold (s : t) (pl : Playlist) (track : Track) :
  current_playlist s = Some pl ->
  let n := Z.of_nat (length (tracks pl)) in
  let i := (current_playlist_index s + 1) mod n in
  tracks pl !! Z.to_nat i = Some track ->
  let s2 := with_player (vlc_stop (player s)) (with_context (Some pl) i s) in
  play_next_attempt s =
  match play_track (url track) (title track) (duration track) true s2 with
  | (Ret success, s3) => Done (Ret success) s3
  | (Raise, s3) => if 1 <? n then Retry s3 else Done (Ret false) s3
  end.
Proof.
  intros Hc n i Ht s2. unfold MusicPlayer.play_next_attempt. rewrite Hc.
  destruct (tracks pl) as [|t0 rest] eqn:Htr.
  - rewrite lookup_nil in Ht. discriminate.
  - assert (Hi : 0 <= i < Z.of_nat (length (t0 :: rest)))
      by (apply next_cursor_in_range; discriminate).
    destruct (index_in_range (t0 :: rest) i Hi) as [E _].
    subst s2. unfold i, n in E, Ht |- *. rewrite E, Ht. reflexivity.
Qed.

(** What one call does with the outcome of its play attempt.  On a bound
    playlist, [play_next_in_playlist] recurses to the following track when
    the attempt for the selected track raises an exception and the
    playlist has more than one track; it returns [False] when the attempt
    raises and the playlist has exactly one track; and when the attempt
    returns without raising, it returns the attempt's own result. *)
Lemma play_next_failure_policy (fuel : nat) (s : t) (pl : Playlist) (track : Track) :
  current_playlist s = Some pl ->
  let n := Z.of_nat (length (tracks pl)) in
  let i := (current_playlist_index s + 1) mod n in
  tracks pl !! Z.to_nat i = Some track ->
  let s2 := with_player (vlc_stop (player s)) (with_context (Some pl) i s) in
  match play_track (url track) (title track) (duration track) true s2 with
  | (Raise, s3) =>
      (1 < n -> play_next_in_playlist (S fuel) s = play_next_in_playlist fuel s3) /\
      (n = 1 -> play_next_in_playlist (S fuel) s = Some (Ret false, s3))
  | (Ret success, s3) =>
      play_next_in_playlist (S fuel) s = Some (Ret success, s3)
  end.
Proof.
  intros Hc n i Ht s2. simpl.
  rewrite (play_next_attempt_unfold s pl track Hc Ht). fold n i s2.
  destruct (play_track (url track) (title track) (duration track) true s2)
    as [[success|] s3]; [reflexivity|].
  split; intros Hn.
  - destruct (Z.ltb_spec 1 n); [reflexivity | lia].
  - destruct (Z.ltb_spec 1 n); [lia | reflexivity].
Qed.

(** Every activation on a bound, non-empty playlist moves the cursor one
    step round the playlist and keeps the playlist bound. *)
Lemma play_next_attempt_cursor (s : t) (pl : Playlist) :
  current_playlist s = Some pl ->
  tracks pl <> [] ->
  let s' := attempt_state (play_next_attempt s) in
  current_playlist s' = Some pl /\
  current_playlist_index s' =
    (current_playlist_index s + 1) mod Z.of_nat (length (tracks pl)).
Proof.
  intros Hc Hne. simpl.
  set (n := Z.of_nat (length (tracks pl))).
  set (i := (current_playlist_index s + 1) mod n).
  assert (Hi : 0 <= i < n).
  { apply next_cursor_in_range. now destruct (tracks pl). }
  destruct (index_in_range (tracks pl) i Hi) as [_ [track Ht]].
  rewrite (play_next_attempt_unfold s pl track Hc Ht). fold n i.
  set (s2 := with_player (vlc_stop (player s)) (with_context (Some pl) i s)).
  pose proof (play_track_frame (url track) (title track) (duration track) true s2)
    as (F1 & F2 & _).
  destruct (play_track (url track) (title track) (duration track) true s2)
    as [[success|] s3]; simpl in F1, F2 |- *.
  - now rewrite F1, F2.
  - destruct (1 <? n); simpl; now rewrite F1, F2.
Qed.

(** A play attempt succeeds when the cache is sound, the resolver answers
    a locator for the URL and VLC does not raise. *)
Lemma play_track_success (u ttl : string) (d : Z) (fp : bool) (s : t) :
  cache_ok s ->
  (exists loc, ydl_extract u = Some loc /\ Py.truthy loc = true) ->
  (forall loc, vlc_raises loc = false) ->
  fst (play_track u ttl d fp s) = Ret true.
Proof.
  intros Hok Hy Hv. rewrite play_track_unfold.
  destruct (extract_success u (clear_visualizer (stop (negb fp) s)) Hok Hy)
    as (loc & -> & ->).
  now rewrite Hv.
Qed.

(** A play attempt raises when the cache is sound, the resolver answers a
    locator for the URL and VLC raises on every locator. *)
Lemma play_track_raises (u ttl : string) (d : Z) (fp : bool) (s : t) :
  cache_ok s ->
  (exists loc, ydl_extract u = Some loc /\ Py.truthy loc = true) ->
  (forall loc, vlc_raises loc = true) ->
  fst (play_track u ttl d fp s) = Raise.
Proof.
  intros Hok Hy Hv. rewrite play_track_unfold.
  destruct (extract_success u (clear_visualizer (stop (negb fp) s)) Hok Hy)
    as (loc & -> & ->).
  now rewrite Hv.
Qed.

(** Every track of the playlist resolves and VLC plays it. *)
Definition all_succeed (pl : Playlist) : Prop :=
  (forall track, track ∈ tracks pl ->
     exists loc, ydl_extract (url track) = Some loc /\ Py.truthy loc = true) /\
  (forall loc, vlc_raises loc = false).

(** With all attempts succeeding, one call needs one activation and moves
    the cursor one step. *)
Lemma play_next_success (s : t) (pl : Playlist) :
  current_playlist s = Some pl ->
  tracks pl <> [] ->
  cache_ok s ->
  all_succeed pl ->
  exists s', play_next_in_playlist 1 s = Some (Ret true, s') /\
             current_playlist s' = Some pl /\
             current_playlist_index s' =
               (current_playlist_index s + 1) mod Z.of_nat (length (tracks pl)) /\
             cache_ok s'.
Proof.
  intros Hc Hne Hok [Hy Hv].
  set (n := Z.of_nat (length (tracks pl))).
  set (i := (current_playlist_index s + 1) mod n).
  assert (Hi : 0 <= i < n).
  { apply next_cursor_in_range. now destruct (tracks pl). }
  destruct (index_in_range (tracks pl) i Hi) as [_ [track Ht]].
  pose proof (play_next_attempt_cursor s pl Hc Hne) as Hcur. simpl in Hcur.
  simpl. rewrite (play_next_attempt_unfold s pl track Hc Ht) in *. fold n i in Hcur |- *.
  set (s2 := with_player (vlc_stop (player s)) (with_context (Some pl) i s)) in *.
  assert (Hok2 : cache_ok s2) by exact Hok.
  assert (Hin : track ∈ tracks pl) by (eapply list_elem_of_lookup_2; exact Ht).
  pose proof (play_track_success (url track) (title track) (duration track) true s2
                Hok2 (Hy track Hin) Hv) as Hs.
  pose proof (play_track_frame (url track) (title track) (duration track) true s2)
    as (_ & _ & _ & _ & Hck).
  destruct (play_track (url track) (title track) (duration track) true s2)
    as [r s3]. simpl in Hs, Hck, Hcur. subst r. simpl in Hcur.
  exists s3. destruct Hcur as [C1 C2]. repeat split; auto.
Qed.

(** The cursors [c+1, c+2, ..., c+k], each taken modulo [n]. *)
Definition cursors_from (n : Z) (c : Z) (k : nat) : list Z :=
  List.map (fun j => (c + Z.of_nat (S j)) mod n) (seq 0 k).

Lemma cursors_from_succ (n c : Z) (k : nat) :
  0 < n ->
  cursors_from n c (S k) = (c + 1) mod n :: cursors_from n ((c + 1) mod n) k.
Proof.
  intros Hn. unfold cursors_from. simpl seq. rewrite <- seq_shift.
  simpl. f_equal. rewrite List.map_map. apply List.map_ext. intros j.
  rewrite Zplus_mod_idemp_l. f_equal. lia.
Qed.

Lemma cursors_visited_success (k : nat) :
  forall (s : t) (pl : Playlist),
    current_playlist s = Some pl ->
    tracks pl <> [] ->
    cache_ok s ->
    all_succeed pl ->
    cursors_visited ydl_extract vlc_raises 1 k s =
    Some (cursors_from (Z.of_nat (length (tracks pl))) (current_playlist_index s) k).
Proof.
  induction k as [|k IH]; intros s pl Hc Hne Hok Hall.
  - reflexivity.
  - destruct (play_next_success s pl Hc Hne Hok Hall) as (s' & Hr & Hc' & Hi' & Hok').
    cbn [cursors_visited]. rewrite Hr.
    rewrite (IH s' pl Hc' Hne Hok' Hall).
    rewrite cursors_from_succ by (destruct (tracks pl); [contradiction | simpl; lia]).
    now rewrite Hi'.
Qed.

Lemma cursors_from_zero_full (n : nat) :
  n <> O ->
  cursors_from (Z.of_nat n) 0 n = List.map Z.of_nat (seq 1 (n - 1)) ++ [0].
Proof.
  intros Hn. destruct n as [|m]; [contradiction|].
  replace (S m - 1)%nat with m by lia.
  unfold cursors_from. rewrite seq_S, List.map_app. simpl List.map at 2.
  f_equal.
  - rewrite <- seq_shift, List.map_map. apply List.map_ext_in.
    intros j Hj. apply in_seq in Hj. rewrite Z.mod_small; lia.
  - f_equal. replace (0 + Z.of_nat (S (0 + m))) with (Z.of_nat (S m)) by lia.
    apply Z_mod_same_full.
Qed.

(** A call that returns does so after some number [k >= 1] of
    activations, no fewer, and leaves the cursor [k] steps further,
    modulo the length of the playlist. *)
Lemma play_next_returns_after (fuel : nat) :
  forall (s : t) (pl : Playlist) (r : result bool) (s' : t),
    current_playlist s = Some pl ->
    tracks pl <> [] ->
    play_next_in_playlist fuel s = Some (r, s') ->
    exists k : nat,
      (1 <= k <= fuel)%nat /\
      play_next_in_playlist k s = Some (r, s') /\
      play_next_in_playlist (k - 1) s = None /\
      current_playlist s' = Some pl /\
      current_playlist_index s' =
        (current_playlist_index s + Z.of_nat k) mod Z.of_nat (length (tracks pl)).
Proof.
  induction fuel as [|fuel IH]; intros s pl r s' Hc Hne Hr; [discriminate|].
  pose proof (play_next_attempt_cursor s pl Hc Hne) as [Hctx Hcur].
  cbn [MusicPlayer.play_next_in_playlist] in Hr.
  destruct (play_next_attempt s) as [r0 s0|s0] eqn:Ha; simpl in Hctx, Hcur.
  - injection Hr as -> ->. exists 1%nat.
    cbn [MusicPlayer.play_next_in_playlist]. rewrite Ha.
    repeat split; auto; lia.
  - destruct (IH s0 pl r s' Hctx Hne Hr) as (k & Hk & Hret & Hnot & Hc' & Hi').
    exists (S k). cbn [MusicPlayer.play_next_in_playlist]. rewrite Ha.
    split; [lia|]. split; [exact Hret|]. split.
    + destruct k as [|j]; [lia|].
      replace (S (S j) - 1)%nat with (S j) by lia.
      replace (S j - 1)%nat with j in Hnot by lia.
      cbn [MusicPlayer.play_next_in_playlist]. now rewrite Ha.
    + split; [exact Hc'|]. rewrite Hi', Hcur, Zplus_mod_idemp_l. f_equal. lia.
Qed.

(** C5 (amended). On a bound playlist of length [n > 0]: each activation
    of [play_next_in_playlist] (each call, the recursive ones included)
    sets the cursor to [(cursor + 1) mod n]; a call whose activation ends
    without recursing returns what the activation returned, and a call
    whose activation recurses continues as the call from the session that
    activation left; so a call that returns does so after some number
    [k >= 1] of activations and leaves the cursor at [(cursor + k) mod n];
    and [n] calls from cursor 0, with every resolution succeeding and VLC
    raising on no locator, take one activation each and visit the cursors
    [1, 2, ..., n-1, 0]. *)
Theorem play_next_wraps (s : t) (pl : Playlist) :
  current_playlist s = Some pl ->
  tracks pl <> [] ->
  let n := length (tracks pl) in
  current_playlist_index (attempt_state (play_next_attempt s)) =
    (current_playlist_index s + 1) mod Z.of_nat n /\
  (forall fuel,
     match play_next_attempt s with
     | Done r s' =>
         play_next_in_playlist (S fuel) s = Some (r, s') /\
         current_playlist_index s' = (current_playlist_index s + 1) mod Z.of_nat n
     | Retry s' =>
         play_next_in_playlist (S fuel) s = play_next_in_playlist fuel s' /\
         current_playlist s' = Some pl /\
         current_playlist_index s' = (current_playlist_index s + 1) mod Z.of_nat n
     end) /\
  (forall fuel r s',
     play_next_in_playlist fuel s = Some (r, s') ->
     exists k : nat,
       (1 <= k <= fuel)%nat /\
       play_next_in_playlist k s = Some (r, s') /\
       play_next_in_playlist (k - 1) s = None /\
       current_playlist_index s' =
         (current_playlist_index s + Z.of_nat k) mod Z.of_nat n) /\
  (current_playlist_index s = 0 -> cache_ok s -> all_succeed pl ->
   cursors_visited ydl_extract vlc_raises 1 n s =
     Some (List.map Z.of_nat (seq 1 (n - 1)) ++ [0])).
Proof.
  intros Hc Hne n.
  pose proof (play_next_attempt_cursor s pl Hc Hne) as [Hctx Hcur].
  split; [exact Hcur|]. split; [|split].
  - intros fuel. cbn [MusicPlayer.play_next_in_playlist].
    destruct (play_next_attempt s) as [r0 s0|s0]; simpl in Hctx, Hcur; auto.
  - intros fuel r s' Hr.
    destruct (play_next_returns_after fuel s pl r s' Hc Hne Hr)
      as (k & Hk & Hret & Hnot & _ & Hi).
    exists k. auto.
  - intros H0 Hok Hall.
    rewrite (cursors_visited_success n s pl Hc Hne Hok Hall), H0. f_equal.
    apply cursors_from_zero_full. subst n. now destruct (tracks pl).
Qed.

(** When every attempt raises and the playlist has more than one track,
    no number of activations is enough for [play_next_in_playlist] to
    return. *)
Lemma play_next_never_returns (fuel : nat) :
  forall (s : t) (pl : Playlist),
    current_playlist s = Some pl ->
    (1 < length (tracks pl))%nat ->
    cache_ok s ->
    (forall u, exists loc, ydl_extract u = Some loc /\ Py.truthy loc = true) ->
    (forall loc, vlc_raises loc = true) ->
    play_next_in_playlist fuel s = None.
Proof.
  induction fuel as [|fuel IH]; intros s pl Hc Hlen Hok Hy Hv; [reflexivity|].
  assert (Hne : tracks pl <> []) by (destruct (tracks pl); [simpl in Hlen; lia | discriminate]).
  set (n := Z.of_nat (length (tracks pl))).
  set (i := (current_playlist_index s + 1) mod n).
  assert (Hi : 0 <= i < n).
  { apply next_cursor_in_range. now destruct (tracks pl). }
  destruct (index_in_range (tracks pl) i Hi) as [_ [track Ht]].
  cbn [MusicPlayer.play_next_in_playlist].
  rewrite (play_next_attempt_unfold s pl track Hc Ht). fold n i.
  set (s2 := with_player (vlc_stop (player s)) (with_context (Some pl) i s)).
  assert (Hok2 : cache_ok s2) by exact Hok.
  pose proof (play_track_raises (url track) (title track) (duration track) true s2
                Hok2 (Hy _) Hv) as Hr.
  pose proof (play_track_frame (url track) (title track) (duration track) true s2)
    as (F1 & _ & _ & _ & Hck).
  destruct (play_track (url track) (title track) (duration track) true s2)
    as [r s3]. simpl in Hr, F1, Hck. subst r.
  destruct (Z.ltb_spec 1 n); [|lia].
  apply (IH s3 pl); auto.
Qed.

(** *** The continuation context *)

Lemma stop_keeps_invariants (b : bool) (s : t) :
  cursor_ok s -> cursor_ok (stop b s) /\ loaded_at_cursor (stop b s).
Proof.
  intros Hc. split.
  - intros pl. unfold stop; simpl. destruct b; [discriminate | apply Hc].
  - intros pl ttl _. unfold stop; simpl. discriminate.
Qed.

Lemma play_track_cursor_ok (u ttl : string) (d : Z) (fp : bool) (s : t) :
  cursor_ok s -> cursor_ok (snd (play_track u ttl d fp s)).
Proof.
  intros Hc pl.
  destruct (play_track_frame u ttl d fp s) as (F1 & F2 & _).
  rewrite F1, F2. destruct fp; [apply Hc | discriminate].
Qed.

(** Playing, in playlist context, the track under the cursor. *)
Lemma play_track_at_cursor (s : t) (pl : Playlist) (track : Track) :
  current_playlist s = Some pl ->
  0 <= current_playlist_index s ->
  tracks pl !! Z.to_nat (current_playlist_index s) = Some track ->
  let s' := snd (play_track (url track) (title track) (duration track) true s) in
  cursor_ok s' /\ loaded_at_cursor s'.
Proof.
  intros Hc H0 Ht. simpl.
  destruct (play_track_frame (url track) (title track) (duration track) true s)
    as (F1 & F2 & _).
  pose proof (play_track_loaded (url track) (title track) (duration track) true s) as L.
  simpl in L. split.
  - intros pl'. rewrite F1, F2, Hc. intros [= <-].
    apply lookup_lt_Some in Ht. lia.
  - intros pl' ttl. rewrite F1, F2, Hc. intros [= <-] Hl.
    exists track. split; [exact Ht|].
    destruct (fst (play_track (url track) (title track) (duration track) true s))
      as [[|]|]; destruct L as (L1 & _); rewrite L1 in Hl; congruence.
Qed.

Lemma play_playlist_track_invariants (pid : string) (i : Z) (s : t) :
  0 <= i ->
  cursor_ok s -> loaded_at_cursor s ->
  let s' := snd (play_playlist_track pid i s) in
  cursor_ok s' /\ loaded_at_cursor s'.
Proof.
  intros Hi Hc Hl. simpl. unfold MusicPlayer.play_playlist_track.
  destruct (find_playlist pid s) as [pl|]; [|now split].
  destruct (Z.leb_spec (Z.of_nat (length (tracks pl))) i) as [|Hlt]; [now split|].
  destruct (index_in_range (tracks pl) i (conj Hi Hlt)) as [-> [track Ht]].
  rewrite Ht.
  apply (play_track_at_cursor (with_context (Some pl) i s) pl track);
    [reflexivity | exact Hi | exact Ht].
Qed.

Lemma play_next_attempt_invariants (s : t) :
  cursor_ok s -> loaded_at_cursor s ->
  let s' := attempt_state (play_next_attempt s) in
  cursor_ok s' /\ loaded_at_cursor s'.
Proof.
  intros Hc Hl. simpl.
  destruct (current_playlist s) as [pl|] eqn:Hp.
  2:{ unfold MusicPlayer.play_next_attempt. rewrite Hp. now split. }
  destruct (tracks pl) as [|t0 rest] eqn:Htr.
  { unfold MusicPlayer.play_next_attempt. rewrite Hp, Htr. now split. }
  set (n := Z.of_nat (length (tracks pl))).
  set (i := (current_playlist_index s + 1) mod n).
  assert (Hi : 0 <= i < n).
  { apply next_cursor_in_range. now rewrite Htr. }
  destruct (index_in_range (tracks pl) i Hi) as [_ [track Ht]].
  rewrite (play_next_attempt_unfold s pl track Hp Ht). fold n i.
  set (s2 := with_player (vlc_stop (player s)) (with_context (Some pl) i s)).
  pose proof (play_track_at_cursor s2 pl track eq_refl (proj1 Hi) Ht) as Hinv.
  simpl in Hinv.
  destruct (play_track (url track) (title track) (duration track) true s2)
    as [[success|] s3]; simpl in Hinv |- *; [exact Hinv|].
  destruct (1 <? n); exact Hinv.
Qed.

Lemma play_next_in_playlist_invariants (fuel : nat) :
  forall (s : t) (r : result bool) (s' : t),
    cursor_ok s -> loaded_at_cursor s ->
    play_next_in_playlist fuel s = Some (r, s') ->
    cursor_ok s' /\ loaded_at_cursor s'.
Proof.
  induction fuel as [|fuel IH]; intros s r s' Hc Hl Hrun; [discriminate|].
  simpl in Hrun.
  pose proof (play_next_attempt_invariants s Hc Hl) as Hinv. simpl in Hinv.
  destruct (play_next_attempt s) as [r0 s0|s0]; simpl in Hinv.
  - injection Hrun as <- <-. exact Hinv.
  - destruct Hinv as [Hc0 Hl0]. exact (IH s0 r s' Hc0 Hl0 Hrun).
Qed.

(** C2 (amended). The public operations preserve this invariant: whenever
    the continuation context is non-null, the cursor is a valid index into
    the bound playlist's tracks, and a track loaded by
    [play_playlist_track] or [play_next_in_playlist] is the playlist's
    track at the cursor; after a failed attempt the context may stay bound
    with no track loaded.  [stop] and [play_playlist_track] (called with a
    track index that is not negative) preserve both parts, as does every
    activation and every returning call of [play_next_in_playlist];
    [play_track] preserves the validity of the cursor.  A track started
    outside a playlist context ([play_track] with [from_playlist] false),
    and [stop] with [clear_playlist] true, leave the context null. *)
Theorem context_invariant_amended (s : t) :
  cursor_ok s -> loaded_at_cursor s ->
  (forall b, cursor_ok (stop b s) /\ loaded_at_cursor (stop b s)) /\
  current_playlist (stop true s) = None /\
  (forall u ttl d, current_playlist (snd (play_track u ttl d false s)) = None) /\
  (forall u ttl d fp, cursor_ok (snd (play_track u ttl d fp s))) /\
  (forall pid i, 0 <= i ->
     cursor_ok (snd (play_playlist_track pid i s)) /\
     loaded_at_cursor (snd (play_playlist_track pid i s))) /\
  (cursor_ok (attempt_state (play_next_attempt s)) /\
   loaded_at_cursor (attempt_state (play_next_attempt s))) /\
  (forall fuel r s', play_next_in_playlist fuel s = Some (r, s') ->
     cursor_ok s' /\ loaded_at_cursor s').
Proof.
  intros Hc Hl.
  refine (conj _ (conj _ (conj _ (conj _ (conj _ (conj _ _)))))).
  - intros b. now apply stop_keeps_invariants.
  - reflexivity.
  - intros u ttl d. now destruct (play_track_frame u ttl d false s) as (F1 & _).
  - intros u ttl d fp. now apply play_track_cursor_ok.
  - intros pid i Hi. now apply play_playlist_track_invariants.
  - now apply play_next_attempt_invariants.
  - intros fuel r s' Hrun.
    exact (play_next_in_playlist_invariants fuel s r s' Hc Hl Hrun).
Qed.

End Backends.

(** *** Concrete runs *)

Import Samples.

Lemma empty_cache_ok (s : t) : stream_cache s = ∅ -> cache_ok s.
Proof. intros E k v. rewrite E, lookup_empty. discriminate. Qed.

Lemma bound_session_cursor_ok : cursor_ok (bound_session mix 0 "Song A" 125).
Proof. intros pl [= <-]. simpl. lia. Qed.

Lemma bound_session_loaded_at_cursor :
  loaded_at_cursor (bound_session mix 0 "Song A" 125).
Proof. intros pl ttl [= <-] [= <-]. now exists track_a. Qed.

(** C1 (as stated) fails: a session plays "Song A" from the playlist
    [mix]; [play_track] is called for another track whose resolution
    returns no locator.  It returns [False], and afterwards the current
    track, the duration, the playing flag and (the call being made outside
    a playlist context) the continuation context all differ from what
    they were; called with [from_playlist] true it keeps the context and
    still drops the track, the duration and the playing flag. *)
Lemma play_track_failure_changes_session :
  let s := bound_session mix 0 "Song A" 125 in
  let r := play_track resolve_none vlc_fine (url track_b) (title track_b) 0 false s in
  let r' := play_track resolve_none vlc_fine (url track_b) (title track_b) 0 true s in
  no_locator (fst (extract_stream_url resolve_none (url track_b) s)) = true /\
  fst r = Ret false /\
  current_track (snd r) <> current_track s /\
  current_duration (snd r) <> current_duration s /\
  is_playing (snd r) <> is_playing s /\
  current_playlist (snd r) <> current_playlist s /\
  current_playlist_index (snd r) <> current_playlist_index s /\
  fst r' = Ret false /\
  current_track (snd r') <> current_track s /\
  current_duration (snd r') <> current_duration s /\
  is_playing (snd r') <> is_playing s.
Proof. vm_compute. repeat split; discriminate. Qed.

Lemma play_track_failure_stops_witness :
  let s := bound_session mix 0 "Song A" 125 in
  let s' := snd (play_track resolve_none vlc_fine (url track_b) (title track_b) 0 true s) in
  s' = clear_visualizer (stop false s) /\ current_track s' = None /\
  current_playlist s' = Some mix /\ current_playlist_index s' = 0.
Proof.
  intros s s'.
  destruct (play_track_failure_stops resolve_none vlc_fine
              (url track_b) (title track_b) 0 true s eq_refl)
    as (_ & E & T & _ & _ & P & I & _).
  repeat split; assumption.
Defined.

(** C3: a failing run.  The playlist [mix] has three tracks and the cursor
    is on the first; the second track resolves to no locator, the third
    would resolve and play.  The play attempt for the second track fails,
    and [play_next_in_playlist] returns [False] from its first activation
    without trying the third track: the cursor rests on the second track
    and nothing is loaded. *)
Theorem play_next_no_retry_on_unresolved :
  let s := bound_session mix 0 "Song A" 125 in
  (1 < length (tracks mix))%nat /\
  fst (play_track resolve_all_but_b vlc_fine (url track_b) (title track_b)
         (duration track_b) true s) = Ret false /\
  fst (play_track resolve_all_but_b vlc_fine (url track_c) (title track_c)
         (duration track_c) true s) = Ret true /\
  exists s',
    play_next_attempt resolve_all_but_b vlc_fine s = Done (Ret false) s' /\
    play_next_in_playlist resolve_all_but_b vlc_fine 1 s = Some (Ret false, s') /\
    current_playlist_index s' = 1 /\ current_track s' = None /\
    is_playing s' = false.
Proof.
  simpl. split; [lia|]. split; [reflexivity|]. split; [reflexivity|].
  eexists. split; [vm_compute; reflexivity|].
  split; [vm_compute; reflexivity|]. now vm_compute.
Qed.

Lemma play_next_failure_policy_witness :
  let s := bound_session duo 0 "Song A" 125 in
  (exists s3, play_next_in_playlist resolve_none vlc_fine 1 s = Some (Ret false, s3)) /\
  (exists s3,
     play_next_attempt resolve_all vlc_broken s = Retry s3 /\
     play_next_in_playlist resolve_all vlc_broken 3 s =
       play_next_in_playlist resolve_all vlc_broken 2 s3).
Proof.
  intros s. split.
  - eexists.
    exact (play_next_failure_policy resolve_none vlc_fine 0 s duo track_b eq_refl eq_refl).
  - eexists. split; [reflexivity|].
    refine (proj1 (play_next_failure_policy resolve_all vlc_broken 2 s duo track_b
                     eq_refl eq_refl) _).
    reflexivity.
Defined.

(** C4: a failing run.  The playlist [duo] has two tracks, every
    resolution answers a locator and VLC raises on every locator, so every
    play attempt raises.  Whatever the number of activations allowed,
    [play_next_in_playlist] has not returned: the number of retries
    exceeds every bound, the length of the playlist included. *)
Theorem play_next_retries_unbounded (fuel : nat) :
  play_next_in_playlist resolve_all vlc_broken fuel
    (bound_session duo 0 "Song A" 125) = None.
Proof.
  apply (play_next_never_returns resolve_all vlc_broken fuel _ duo).
  - reflexivity.
  - simpl. lia.
  - now apply empty_cache_ok.
  - intros u. now exists ("stream:" +:+ u)%string.
  - reflexivity.
Qed.

Lemma play_next_wraps_witness :
  let s := bound_session mix 0 "Song A" 125 in
  current_playlist_index (attempt_state (play_next_attempt resolve_all vlc_fine s)) = 1 /\
  (exists k : nat,
     (1 <= k <= 5)%nat /\
     play_next_in_playlist resolve_all vlc_breaks_b k s =
       play_next_in_playlist resolve_all vlc_breaks_b 5 s /\
     play_next_in_playlist resolve_all vlc_breaks_b (k - 1) s = None) /\
  cursors_visited resolve_all vlc_fine 1 3 s = Some [1; 2; 0].
Proof.
  intros s.
  destruct (play_next_wraps resolve_all vlc_fine s mix eq_refl) as (H1 & _ & _ & H2).
  - discriminate.
  - split; [exact H1|]. split.
    + destruct (play_next_wraps resolve_all vlc_breaks_b s mix eq_refl)
        as (_ & _ & H3 & _); [discriminate|].
      destruct (play_next_in_playlist resolve_all vlc_breaks_b 5 s)
        as [[r s']|] eqn:Hr; [|discriminate].
      destruct (H3 5%nat r s' Hr) as (k & Hk & Hret & Hnot & _).
      exists k. auto.
    + apply H2.
      * reflexivity.
      * now apply empty_cache_ok.
      * split; [|reflexivity]. intros track _. now exists ("stream:" +:+ url track)%string.
Defined.

(** C5 (as stated) fails.  The playlist [mix] has three tracks and the
    cursor is 0; every resolution succeeds, and VLC raises on the locator
    of the second track only.  One call of [play_next_in_playlist] takes
    two activations and returns [True] with the cursor at 2, not at
    [(0 + 1) mod 3]; and three calls visit the cursors [2, 0, 2], not
    [1, 2, 0]. *)
Lemma play_next_skips_raising_track :
  let s := bound_session mix 0 "Song A" 125 in
  (forall track, track ∈ tracks mix ->
     exists loc, resolve_all (url track) = Some loc /\ Py.truthy loc = true) /\
  play_next_in_playlist resolve_all vlc_breaks_b 1 s = None /\
  (exists s',
     play_next_in_playlist resolve_all vlc_breaks_b 2 s = Some (Ret true, s') /\
     current_playlist_index s' = 2 /\
     current_playlist_index s' <>
       (current_playlist_index s + 1) mod Z.of_nat (length (tracks mix)) /\
     current_track s' = Some (title track_c)) /\
  cursors_visited resolve_all vlc_breaks_b 2 3 s = Some [2; 0; 2] /\
  cursors_visited resolve_all vlc_breaks_b 2 3 s <>
    Some (List.map Z.of_nat (seq 1 (length (tracks mix) - 1)) ++ [0]).
Proof.
  intros s. split.
  - intros track _. now exists ("stream:" +:+ url track)%string.
  - split; [reflexivity|]. split.
    + eexists. split; [vm_compute; reflexivity|]. now vm_compute.
    + split; [reflexivity|]. vm_compute. discriminate.
Qed.

(** C2 (as stated) fails.  From the initial session, where no playlist is
    bound, [play_playlist_track] on the first track of [mix] with a
    resolution that returns no locator returns [False] and leaves [mix]
    bound with cursor 0 while no track is loaded: the context is non-null
    although no loaded track was launched from the playlist. *)
Lemma context_invariant_not_preserved :
  let s := init [mix; duo; solo] in
  let r := play_playlist_track resolve_none vlc_fine "p1" 0 s in
  context_invariant s /\
  fst r = Ret false /\
  current_playlist (snd r) = Some mix /\
  current_track (snd r) = None /\
  ~ context_invariant (snd r).
Proof.
  simpl. split.
  - split; intros pl; discriminate.
  - split; [reflexivity|]. split; [reflexivity|]. split; [reflexivity|].
    intros [_ H]. destruct (H mix eq_refl) as (track & _ & Hcur). discriminate.
Qed.

(** A negative track index passes the range test of
    [play_playlist_track]: index -1 plays the last track of [mix] and
    leaves the cursor at -1. *)
Lemma play_playlist_track_negative_index :
  let s := init [mix; duo; solo] in
  let r := play_playlist_track resolve_all vlc_fine "p1" (-1) s in
  fst r = Ret true /\ current_track (snd r) = Some "Song C"%string /\
  current_playlist_index (snd r) = -1 /\ ~ cursor_ok (snd r).
Proof.
  simpl. split; [reflexivity|]. split; [reflexivity|]. split; [reflexivity|].
  intros H. destruct (H mix eq_refl) as [H0 _]. vm_compute in H0. now apply H0.
Qed.

Lemma context_invariant_amended_witness :
  let s := bound_session mix 0 "Song A" 125 in
  current_playlist (snd (play_track resolve_none vlc_fine (url track_b) "Song B" 0 false s)) = None /\
  cursor_ok (snd (play_playlist_track resolve_all vlc_fine "p2" 1 s)) /\
  loaded_at_cursor (snd (play_playlist_track resolve_none vlc_fine "p2" 1 s)).
Proof.
  intros s.
  pose proof (context_invariant_amended resolve_all vlc_fine s
                bound_session_cursor_ok bound_session_loaded_at_cursor)
    as (_ & _ & _ & _ & Hp & _).
  pose proof (context_invariant_amended resolve_none vlc_fine s
                bound_session_cursor_ok bound_session_loaded_at_cursor)
    as (_ & _ & Ht & _ & Hp' & _).
  split; [apply Ht|]. split.
  - apply (Hp "p2"%string 1). lia.
  - apply (Hp' "p2"%string 1). lia.
Defined.

End PlayerFacts.

(** ** The visualizer *)

Module VisualizerFacts.

Import AudioVisualizer.

Lemma zero_bands_all_zero (v : t) :
  Forall (fun x => x = 0%float) (frequency_bands (zero_bands v)) /\
  length (frequency_bands (zero_bands v)) = length (frequency_bands v).
Proof.
  unfold zero_bands; simpl. split.
  - now apply Forall_replicate.
  - apply length_replicate.
Qed.

(** C9 (amended). For any prior bar levels, when an update runs while VLC
    reports the playing state: if the volume is not negative, the elapsed
    time is above 0 ms and the media identity the update reads differs
    from the last-seen identity, then after the call every bar level is
    exactly 0, the number of bars is unchanged, the new identity is
    recorded, and the target generation and smoothing step is skipped
    (the result is the same whatever [sin] and [cos] compute); and if the
    volume is negative or the elapsed time is at most 0 ms, the update
    returns before the comparison and leaves the visualizer, its bars and
    its recorded identity, as it was. *)
Theorem reset_on_track_change (sin cos : float -> float)
    (p : MediaPlayerObs) (v : t) :
  get_state p = Ret Playing ->
  (forall media_id : option string,
     0 <= audio_get_volume p ->
     0 < get_time p ->
     get_media p = Ret media_id ->
     current_track v <> media_id ->
     exists v',
       (forall sin' cos', update_from_vlc sin' cos' (Some p) v = Ret v') /\
       update_from_vlc sin cos (Some p) v = Ret v' /\
       Forall (fun x => x = 0%float) (frequency_bands v') /\
       length (frequency_bands v') = length (frequency_bands v) /\
       current_track v' = media_id) /\
  (audio_get_volume p < 0 \/ get_time p <= 0 ->
   (forall sin' cos', update_from_vlc sin' cos' (Some p) v = Ret v) /\
   update_from_vlc sin cos (Some p) v = Ret v).
Proof.
  intros Hs. split.
  - intros media_id Hv Ht Hm Hne.
    assert (E : forall sin' cos',
               update_from_vlc sin' cos' (Some p) v =
               Ret (with_track (zero_bands v) media_id)).
    { intros sin' cos'. unfold update_from_vlc. rewrite Hs, Hm.
      destruct (Z.ltb_spec (audio_get_volume p) 0); [lia|].
      destruct (Z.leb_spec (get_time p) 0); [lia|]. simpl.
      destruct (decide (current_track v = media_id)); [contradiction | reflexivity]. }
    exists (with_track (zero_bands v) media_id).
    split; [exact E|]. split; [apply E|].
    destruct (zero_bands_all_zero v) as [Hz Hl].
    split; [exact Hz|]. split; [exact Hl | reflexivity].
  - intros Hg.
    assert (E : forall sin' cos', update_from_vlc sin' cos' (Some p) v = Ret v).
    { intros sin' cos'. unfold update_from_vlc. rewrite Hs.
      destruct (Z.ltb_spec (audio_get_volume p) 0); [reflexivity|].
      destruct (Z.leb_spec (get_time p) 0); [reflexivity | lia]. }
    split; [exact E | apply E].
Qed.

(** A visualizer with two raised bars that last saw the media ["m1"]. *)
Definition raised : t :=
  {| bars := 2; frequency_bands := [0.5%float; 0.25%float];
     current_track := Some "m1"%string; needs_redraw := false |}.

(** VLC playing the media ["m2"] at full volume, [ms] milliseconds in. *)
Definition playing_m2 (ms : Z) : MediaPlayerObs :=
  {| get_state := Ret Playing; audio_get_volume := 100; get_time := ms;
     get_media := Ret (Some "m2"%string) |}.

(** A session that plays ["Song A"] and draws the visualizer [raised]. *)
Definition session_with_raised : MusicPlayer.t :=
  {| MusicPlayer.player :=
       {| MusicPlayer.media := Some "m1"%string; MusicPlayer.audio_volume := 100;
          MusicPlayer.started := true |};
     MusicPlayer.is_playing := true;
     MusicPlayer.current_track := Some "Song A"%string;
     MusicPlayer.current_duration := 125;
     MusicPlayer.stream_cache := ∅;
     MusicPlayer.volume := 100;
     MusicPlayer.playlists := [];
     MusicPlayer.current_playlist := None;
     MusicPlayer.current_playlist_index := -1;
     MusicPlayer.visualizer := Some raised |}.

Lemma reset_on_track_change_witness :
  (exists v',
     update_from_vlc (fun x => x) (fun x => x) (Some (playing_m2 1500)) raised = Ret v' /\
     Forall (fun x => x = 0%float) (frequency_bands v') /\
     length (frequency_bands v') = 2%nat /\
     current_track v' = Some "m2"%string) /\
  update_from_vlc (fun x => x) (fun x => x) (Some (playing_m2 0)) raised = Ret raised.
Proof.
  split.
  - destruct (reset_on_track_change (fun x => x) (fun x => x) (playing_m2 1500) raised
                eq_refl) as [H _].
    destruct (H (Some "m2"%string)) as (v' & _ & E & Hz & Hl & Hc).
    + simpl; lia.
    + simpl; lia.
    + reflexivity.
    + discriminate.
    + exists v'. repeat split; assumption.
  - destruct (reset_on_track_change (fun x => x) (fun x => x) (playing_m2 0) raised
                eq_refl) as [_ H].
    apply H. right. simpl; lia.
Defined.

(** C9 (as stated) fails.  [play_track] clears the visualizer before it
    loads the next media, so the visualizer of [session_with_raised] has
    all bars at 0 and no recorded identity when VLC starts to play the
    media ["m2"].  While the elapsed time that VLC reports is still 0 ms,
    an update reads an identity that differs from the last-seen one and
    returns before it compares them: the identity ["m2"] is not
    recorded. *)
Lemma identity_not_recorded_at_time_zero :
  let s' := snd (MusicPlayer.play_track Samples.resolve_all Samples.vlc_fine
                   (MusicPlayer.url Samples.track_b) (MusicPlayer.title Samples.track_b)
                   0 false session_with_raised) in
  let v := clear_immediately raised in
  MusicPlayer.visualizer s' = Some v /\
  MusicPlayer.is_playing s' = true /\
  get_state (playing_m2 0) = Ret Playing /\
  get_media (playing_m2 0) = Ret (Some "m2"%string) /\
  current_track v = None /\
  current_track v <> Some "m2"%string /\
  (forall sin cos, update_from_vlc sin cos (Some (playing_m2 0)) v = Ret v) /\
  (forall sin cos v', update_from_vlc sin cos (Some (playing_m2 0)) v = Ret v' ->
     current_track v' <> Some "m2"%string).
Proof.
  intros s' v.
  split; [reflexivity|]. split; [reflexivity|]. split; [reflexivity|].
  split; [reflexivity|]. split; [reflexivity|]. split; [discriminate|].
  split; [reflexivity|].
  intros sin cos v' H. change (Ret v = Ret v') in H. injection H as <-. discriminate.
Qed.

(** Where the identity is unchanged the synthesis does run and raises
    bars that were at 0, so all-zero bars after an update are the mark of
    the skipped step. *)
Example synthesis_raises_bars :
  update_from_vlc (fun _ => 0%float) (fun _ => 0%float) (Some (playing_m2 1500))
    (with_track (init 2) (Some "m2"%string)) =
  Ret {| bars := 2;
         frequency_bands := [(0.6 * 0.7 + (1 - 0.6) * 0)%float;
                             (0.6 * 0.4 + (1 - 0.6) * 0)%float];
         current_track := Some "m2"%string; needs_redraw := false |}.
Proof. vm_compute. reflexivity. Qed.

End VisualizerFacts.

(** ** The viewport *)

Module ViewportFacts.

Import MusicPlayerUI.

(** Case analysis on the two tests of [adjust_viewport]. *)
Ltac viewport_cases :=
  unfold adjust_viewport; simpl;
  repeat match goal with
         | |- context [?a <? ?b] => destruct (Z.ltb_spec a b); simpl
         | |- context [?a <=? ?b] => destruct (Z.leb_spec a b); simpl
         | |- context [?a =? ?b] => destruct (Z.eqb_spec a b); simpl
         | |- context [is_loading_more ?u] => destruct (is_loading_more u); simpl
         end;
  simpl in *.

(** [adjust_viewport] keeps the selection and the height, and brings the
    selection into the window whatever the offset was. *)
Lemma adjust_viewport_window (u : t) :
  1 <= visible_lines u ->
  let u' := snd (adjust_viewport u) in
  selected_index u' = selected_index u /\
  visible_lines u' = visible_lines u /\
  scroll_offset u' <= selected_index u' < scroll_offset u' + visible_lines u'.
Proof. intros Hh. viewport_cases; lia. Qed.

(** [adjust_viewport] scrolls one way, and no further than needed: up
    until the selection is the first visible line, down until it is the
    last one, and not at all when the selection is visible. *)
Lemma adjust_viewport_minimal (u : t) :
  1 <= visible_lines u ->
  let u' := snd (adjust_viewport u) in
  (selected_index u < scroll_offset u ->
     scroll_offset u' = selected_index u /\ fst (adjust_viewport u) = true) /\
  (scroll_offset u + visible_lines u <= selected_index u ->
     scroll_offset u' = selected_index u - visible_lines u + 1 /\
     fst (adjust_viewport u) = true) /\
  (scroll_offset u <= selected_index u < scroll_offset u + visible_lines u ->
     u' = u /\ fst (adjust_viewport u) = false) /\
  (forall o, o <= selected_index u < o + visible_lines u ->
     Z.abs (scroll_offset u' - scroll_offset u) <= Z.abs (o - scroll_offset u)).
Proof. intros Hh. viewport_cases; repeat split; intros; lia. Qed.

(** One arrow key keeps the viewport invariant and the height. *)
Lemma handle_results_input_viewport (m : Z) (k : Key) (u : t) :
  1 <= m ->
  viewport_ok m u ->
  let u' := snd (handle_results_input m k u) in
  visible_lines u' = visible_lines u /\ viewport_ok m u'.
Proof.
  intros Hm [Hw Hs]. unfold viewport_ok, handle_results_input.
  destruct k; viewport_cases; lia.
Qed.

Lemma navigate_viewport (m : Z) (keys : list Key) :
  forall u,
    1 <= m ->
    viewport_ok m u ->
    Forall (fun u' => visible_lines u' = visible_lines u /\ viewport_ok m u')
           (navigate m keys u).
Proof.
  induction keys as [|k keys IH]; intros u Hm Hok; simpl; constructor.
  - now apply handle_results_input_viewport.
  - destruct (handle_results_input_viewport m k u Hm Hok) as [Hh Hok'].
    simpl in Hh. rewrite <- Hh. now apply IH.
Qed.

(** The results list is entered in a state that satisfies the
    invariant. *)
Lemma enter_results_viewport (m h : Z) :
  1 <= h -> viewport_ok m (enter_results h).
Proof. intros Hh. unfold viewport_ok, enter_results; simpl. lia. Qed.

(** Over a list of [m >= 1] items and from a state that satisfies the
    viewport invariant, such as the one the Enter key of the search
    handler leaves, after each step of any sequence of up/down steps the
    viewport height is still [h],
    [scroll_offset <= selected_index < scroll_offset + h] and
    [0 <= scroll_offset <= max(0, m - h)].  [adjust_viewport], for a
    height of at least 1, brings the selection into the window from any
    state by scrolling one way only and no further than needed: to the
    selection when it is above the window, to [selected_index - h + 1]
    when it is below, not at all when it is visible. *)
Theorem viewport_invariant (m : Z) (keys : list Key) (u : t) :
  1 <= m ->
  viewport_ok m u ->
  Forall (fun u' => visible_lines u' = visible_lines u /\ viewport_ok m u')
         (navigate m keys u) /\
  (forall u0, 1 <= visible_lines u0 ->
     let u' := snd (adjust_viewport u0) in
     scroll_offset u' <= selected_index u0 < scroll_offset u' + visible_lines u0 /\
     (selected_index u0 < scroll_offset u0 -> scroll_offset u' = selected_index u0) /\
     (scroll_offset u0 + visible_lines u0 <= selected_index u0 ->
        scroll_offset u' = selected_index u0 - visible_lines u0 + 1) /\
     (scroll_offset u0 <= selected_index u0 < scroll_offset u0 + visible_lines u0 ->
        u' = u0) /\
     (forall o, o <= selected_index u0 < o + visible_lines u0 ->
        Z.abs (scroll_offset u' - scroll_offset u0) <= Z.abs (o - scroll_offset u0))).
Proof.
  intros Hm Hok. split; [now apply navigate_viewport|].
  intros u0 Hh u'.
  destruct (adjust_viewport_window u0 Hh) as (Es & Eh & Hw).
  destruct (adjust_viewport_minimal u0 Hh) as (Hup & Hdown & Hin & Hmin).
  fold u' in Es, Eh, Hw, Hup, Hdown, Hin, Hmin.
  rewrite Es, Eh in Hw.
  split; [exact Hw|]. split; [intros H; now apply Hup|].
  split; [intros H; now apply Hdown|]. split; [intros H; now apply Hin | exact Hmin].
Qed.

Lemma viewport_invariant_witness :
  Forall (fun u' => visible_lines u' = 3 /\ viewport_ok 5 u')
    (navigate 5 [KEY_DOWN; KEY_DOWN; KEY_DOWN; KEY_DOWN; KEY_DOWN; KEY_UP; KEY_UP;
                 KEY_UP; KEY_UP; KEY_UP]
       (enter_results 3)) /\
  List.map (fun u' => (selected_index u', scroll_offset u'))
    (navigate 5 [KEY_DOWN; KEY_DOWN; KEY_DOWN; KEY_DOWN; KEY_DOWN; KEY_UP; KEY_UP;
                 KEY_UP; KEY_UP; KEY_UP]
       (enter_results 3)) =
  [(1, 0); (2, 0); (3, 1); (4, 2); (4, 2); (3, 2); (2, 2); (1, 1); (0, 0); (0, 0)].
Proof.
  split; [|reflexivity].
  refine (proj1 (viewport_invariant 5 _ (enter_results 3) _ _)).
  - lia.
  - apply enter_results_viewport. lia.
Defined.

End ViewportFacts.

(** * The rest of the player: favorites, playlists, polling *)

(** ** Favorites and the playlist collection *)

Module Collections.

Import MusicPlayer.

(** [fav.get('id') == track_id] *)
Definition has_id (tid : string) (fav : Track) : bool :=
  String.eqb (track_id fav) tid.

(** [is_favorite] *)
Definition is_favorite (tid : string) (favorites : list Track) : bool :=
  existsb (has_id tid) favorites.

(** [add_to_favorites]: the flag returned and the new list.  The list is
    written to disk exactly when the flag is [True]; the write swallows
    its errors and does not touch the list. *)
Definition add_to_favorites (track : Track) (favorites : list Track)
    : bool * list Track :=
  if negb (existsb (has_id (track_id track)) favorites)
  then (true, favorites ++ [track])
  else (false, favorites).

(** [remove_from_favorites] *)
Definition remove_from_favorites (tid : string) (favorites : list Track)
    : bool * list Track :=
  let favorites' := List.filter (fun fav => negb (has_id tid fav)) favorites in
  (Z.of_nat (length favorites') <? Z.of_nat (length favorites), favorites').

(** [not name or not tracks] *)
Definition rejected (nm : string) (trs : list Track) : bool :=
  negb (Py.truthy nm) || match trs with [] => true | _ :: _ => false end.

(** [create_playlist]; [new_id] is the identifier that [uuid.uuid4()]
    draws. *)
Definition create_playlist (new_id nm : string) (trs : list Track)
    (pls : list Playlist) : bool * list Playlist :=
  if rejected nm trs then (false, pls)
  else (true, pls ++ [{| playlist_id := new_id; name := nm; tracks := trs |}]).

(** The loop of [update_playlist]: the first playlist with the identifier
    gets the new name and tracks; [None] when there is none. *)
Fixpoint update_first (pid nm : string) (trs : list Track) (pls : list Playlist)
    : option (list Playlist) :=
  match pls with
  | [] => None
  | p :: rest =>
      if String.eqb (playlist_id p) pid
      then Some ({| playlist_id := playlist_id p; name := nm; tracks := trs |} :: rest)
      else match update_first pid nm trs rest with
           | Some rest' => Some (p :: rest')
           | None => None
           end
  end.

(** [update_playlist], on the collection.  (The playlist is changed in
    place, so a session that has it bound sees the change too; that
    sharing is outside this definition.) *)
Definition update_playlist (pid nm : string) (trs : list Track)
    (pls : list Playlist) : bool * list Playlist :=
  if rejected nm trs then (false, pls)
  else match update_first pid nm trs pls with
       | Some pls' => (true, pls')
       | None => (false, pls)
       end.

(** [delete_playlist] *)
Definition delete_playlist (pid : string) (pls : list Playlist)
    : bool * list Playlist :=
  let pls' := List.filter (fun p => negb (String.eqb (playlist_id p) pid)) pls in
  (Z.of_nat (length pls') <? Z.of_nat (length pls), pls').

(** [next((p for p in playlists if p.get('id') == pid), None)] *)
Definition lookup (pid : string) (pls : list Playlist) : option Playlist :=
  List.find (fun p => String.eqb (playlist_id p) pid) pls.

(** A session with its playlist collection replaced
    ([self.playlists = ...]). *)
Definition with_playlists (pls : list Playlist) (s : t) : t :=
  {| player := player s;
     is_playing := is_playing s; current_track := current_track s;
     current_duration := current_duration s; stream_cache := stream_cache s;
     volume := volume s; playlists := pls;
     current_playlist := current_playlist s;
     current_playlist_index := current_playlist_index s;
     visualizer := visualizer s |}.

(** [create_playlist] and [delete_playlist] on the session: the first
    appends to [self.playlists], the second rebinds it, and neither
    changes a playlist in place. *)
Definition session_create_playlist (new_id nm : string) (trs : list Track) (s : t)
    : bool * t :=
  let '(r, pls) := create_playlist new_id nm trs (playlists s) in
  (r, with_playlists pls s).

Definition session_delete_playlist (pid : string) (s : t) : bool * t :=
  let '(r, pls) := delete_playlist pid (playlists s) in
  (r, with_playlists pls s).

(** What the two creating operations guarantee of every playlist. *)
Definition well_formed (p : Playlist) : Prop :=
  Py.truthy (name p) = true /\ tracks p <> [].

End Collections.

Module CollectionFacts.

Import MusicPlayer Collections.

(** *** Favorites *)

Lemma filter_length_lt {A : Type} (f : A -> bool) (l : list A) :
  (Z.of_nat (length (List.filter f l)) <? Z.of_nat (length l)) =
  existsb (fun x => negb (f x)) l.
Proof.
  assert (Hle : forall l', (length (List.filter f l') <= length l')%nat).
  { induction l' as [|x l' IH]; simpl; [lia|]. destruct (f x); simpl; lia. }
  induction l as [|a l IH]; simpl; [reflexivity|].
  destruct (f a); simpl.
  - rewrite <- IH.
    destruct (Z.ltb_spec (Z.of_nat (length (List.filter f l))) (Z.of_nat (length l)));
      destruct (Z.ltb_spec (Z.of_nat (S (length (List.filter f l))))
                  (Z.of_nat (S (length l)))); try reflexivity; lia.
  - specialize (Hle l).
    destruct (Z.ltb_spec (Z.of_nat (length (List.filter f l)))
                (Z.of_nat (S (length l)))); [reflexivity | lia].
Qed.

Lemma filter_all {A : Type} (f : A -> bool) (l : list A) :
  existsb (fun x => negb (f x)) l = false -> List.filter f l = l.
Proof.
  induction l as [|a l IH]; simpl; [reflexivity|].
  intros H. apply orb_false_iff in H as [Ha Hl].
  apply negb_false_iff in Ha. rewrite Ha. f_equal. now apply IH.
Qed.

Lemma has_id_sym_neq (a b : string) (fav : Track) :
  a <> b -> has_id a fav = true -> has_id b fav = false.
Proof.
  unfold has_id. intros Hne Ha. apply String.eqb_eq in Ha.
  apply String.eqb_neq. congruence.
Qed.

Lemma is_favorite_filter_other (tid tid' : string) (favorites : list Track) :
  tid' <> tid ->
  is_favorite tid' (List.filter (fun fav => negb (has_id tid fav)) favorites) =
  is_favorite tid' favorites.
Proof.
  intros Hne. unfold is_favorite.
  induction favorites as [|a l IH]; simpl; [reflexivity|].
  destruct (has_id tid a) eqn:Ha; simpl.
  - rewrite IH. now rewrite (has_id_sym_neq tid tid' a).
  - now rewrite IH.
Qed.

Lemma is_favorite_filter_same (tid : string) (favorites : list Track) :
  is_favorite tid (List.filter (fun fav => negb (has_id tid fav)) favorites) = false.
Proof.
  unfold is_favorite.
  induction favorites as [|a l IH]; simpl; [reflexivity|].
  destruct (has_id tid a) eqn:Ha; simpl; [exact IH|]. now rewrite Ha.
Qed.

(** X1. Adding a track to the favorites answers whether its identifier
    was absent, makes it a favorite, and is idempotent: a second
    [add_to_favorites] of a track with the same identifier returns [False]
    and leaves the list as the first call left it. *)
Theorem add_to_favorites_idempotent (track track' : Track) (favorites : list Track) :
  track_id track' = track_id track ->
  let r1 := add_to_favorites track favorites in
  let r2 := add_to_favorites track' (snd r1) in
  fst r1 = negb (is_favorite (track_id track) favorites) /\
  is_favorite (track_id track) (snd r1) = true /\
  fst r2 = false /\ snd r2 = snd r1.
Proof.
  intros Hid. simpl. unfold add_to_favorites, is_favorite. rewrite Hid.
  destruct (existsb (has_id (track_id track)) favorites) eqn:He; simpl.
  - rewrite He. simpl. repeat split; reflexivity.
  - assert (E : existsb (has_id (track_id track)) (favorites ++ [track]) = true).
    { rewrite existsb_app. simpl. unfold has_id at 2. rewrite String.eqb_refl.
      now rewrite orb_true_r. }
    rewrite E. simpl. repeat split; reflexivity.
Qed.

(** X2. The favorites never hold two tracks with the same identifier:
    [add_to_favorites] and [remove_from_favorites] keep the identifiers
    pairwise distinct. *)
Theorem favorites_ids_stay_distinct (track : Track) (tid : string)
    (favorites : list Track) :
  NoDup (List.map track_id favorites) ->
  NoDup (List.map track_id (snd (add_to_favorites track favorites))) /\
  NoDup (List.map track_id (snd (remove_from_favorites tid favorites))).
Proof.
  intros Hnd. split.
  - unfold add_to_favorites.
    destruct (existsb (has_id (track_id track)) favorites) eqn:He; simpl; [exact Hnd|].
    rewrite List.map_app. simpl. apply NoDup_app. split; [exact Hnd|]. split.
    + intros x Hx Hx'. apply list_elem_of_singleton in Hx'. subst x.
      apply list_elem_of_In, in_map_iff in Hx as (fav & Hf & Hin).
      assert (existsb (has_id (track_id track)) favorites = true).
      { apply existsb_exists. exists fav. split; [exact Hin|].
        unfold has_id. now apply String.eqb_eq. }
      congruence.
    + apply NoDup_singleton.
  - simpl. induction favorites as [|a l IH]; simpl; [constructor|].
    apply NoDup_cons in Hnd as [Ha Hl].
    destruct (has_id tid a); simpl; [now apply IH|].
    apply NoDup_cons. split; [|now apply IH].
    intros Hin. apply Ha.
    apply list_elem_of_In, in_map_iff in Hin as (fav & Hf & Hin).
    apply list_elem_of_In, in_map_iff. exists fav. split; [exact Hf|].
    now apply filter_In in Hin as [Hin _].
Qed.

(** X3. [remove_from_favorites] answers whether the identifier was a
    favorite and leaves no track with it; on an absent identifier it
    returns [False] and the list is unchanged; whether any other
    identifier is a favorite is unaffected. *)
Theorem remove_from_favorites_spec (tid : string) (favorites : list Track) :
  let r := remove_from_favorites tid favorites in
  fst r = is_favorite tid favorites /\
  is_favorite tid (snd r) = false /\
  (is_favorite tid favorites = false -> r = (false, favorites)) /\
  (forall tid', tid' <> tid -> is_favorite tid' (snd r) = is_favorite tid' favorites).
Proof.
  simpl. unfold remove_from_favorites. simpl.
  assert (E : existsb (fun x => negb (negb (has_id tid x))) favorites =
              is_favorite tid favorites).
  { unfold is_favorite. induction favorites as [|a l IH]; simpl; [reflexivity|].
    now rewrite negb_involutive, IH. }
  rewrite filter_length_lt, E.
  split; [reflexivity|]. split; [apply is_favorite_filter_same|]. split.
  - intros Hno. rewrite Hno. f_equal. apply filter_all. now rewrite E.
  - intros tid' Hne. now apply is_favorite_filter_other.
Qed.

(** X4. Adding a track whose identifier is not a favorite and then
    removing that identifier gives the original favorites back, both
    calls returning [True]. *)
Theorem add_then_remove_favorite (track : Track) (favorites : list Track) :
  is_favorite (track_id track) favorites = false ->
  let r1 := add_to_favorites track favorites in
  let r2 := remove_from_favorites (track_id track) (snd r1) in
  fst r1 = true /\ r2 = (true, favorites).
Proof.
  intros Hno. simpl. unfold add_to_favorites. unfold is_favorite in Hno.
  rewrite Hno. simpl. split; [reflexivity|].
  unfold remove_from_favorites.
  rewrite List.filter_app. simpl.
  assert (Hself : has_id (track_id track) track = true)
    by (unfold has_id; apply String.eqb_refl).
  rewrite Hself. simpl. rewrite app_nil_r.
  assert (F : List.filter (fun fav => negb (has_id (track_id track) fav)) favorites
              = favorites).
  { apply filter_all. rewrite <- Hno. clear Hno.
    induction favorites as [|a l IH]; simpl; [reflexivity|].
    now rewrite negb_involutive, IH. }
  rewrite F. f_equal. rewrite length_app. simpl.
  destruct (Z.ltb_spec (Z.of_nat (length favorites))
              (Z.of_nat (length favorites + 1))); [reflexivity | lia].
Qed.

(** *** The playlist collection *)

Lemma lookup_app (pid : string) (l l' : list Playlist) :
  lookup pid (l ++ l') =
  match lookup pid l with
  | Some p => Some p
  | None => lookup pid l'
  end.
Proof.
  unfold lookup. induction l as [|a l IH]; simpl; [reflexivity|].
  now destruct (String.eqb (playlist_id a) pid).
Qed.

Lemma rejected_false (nm : string) (trs : list Track) :
  rejected nm trs = false -> Py.truthy nm = true /\ trs <> [].
Proof.
  unfold rejected. intros H. apply orb_false_iff in H as [Hn Ht].
  apply negb_false_iff in Hn. split; [exact Hn|]. now destruct trs.
Qed.

(** X5. [create_playlist] refuses an empty name or an empty track list
    and then changes nothing; otherwise it returns [True] and appends the
    new playlist, which is found under the drawn identifier when that one
    was not in use, every playlist that could be found before being found
    unchanged. *)
Theorem create_playlist_spec (new_id nm : string) (trs : list Track)
    (pls : list Playlist) :
  let r := create_playlist new_id nm trs pls in
  let new := {| playlist_id := new_id; name := nm; tracks := trs |} in
  (rejected nm trs = true -> r = (false, pls)) /\
  (rejected nm trs = false ->
     r = (true, pls ++ [new]) /\
     (lookup new_id pls = None -> lookup new_id (snd r) = Some new) /\
     (forall pid p, lookup pid pls = Some p -> lookup pid (snd r) = Some p) /\
     (forall pid, pid <> new_id -> lookup pid (snd r) = lookup pid pls)).
Proof.
  simpl. unfold create_playlist. split; intros Hr; rewrite Hr; [reflexivity|].
  split; [reflexivity|]. simpl. split; [|split].
  - intros Hnone. rewrite lookup_app, Hnone. unfold lookup. simpl.
    now rewrite String.eqb_refl.
  - intros pid p0 Hp. now rewrite lookup_app, Hp.
  - intros pid Hne. rewrite lookup_app. destruct (lookup pid pls); [reflexivity|].
    unfold lookup. simpl.
    destruct (String.eqb_spec new_id pid); [congruence | reflexivity].
Qed.

Lemma update_first_spec (pid nm : string) (trs : list Track) (pls : list Playlist) :
  match update_first pid nm trs pls with
  | Some pls' =>
      is_Some (lookup pid pls) /\
      lookup pid pls' = Some {| playlist_id := pid; name := nm; tracks := trs |} /\
      List.map playlist_id pls' = List.map playlist_id pls /\
      (forall pid', pid' <> pid -> lookup pid' pls' = lookup pid' pls) /\
      (forall p', p' ∈ pls' ->
         p' ∈ pls \/ p' = {| playlist_id := pid; name := nm; tracks := trs |})
  | None => lookup pid pls = None
  end.
Proof.
  unfold lookup. induction pls as [|a l IH]; simpl; [reflexivity|].
  destruct (String.eqb_spec (playlist_id a) pid) as [E|N].
  - simpl. rewrite E, String.eqb_refl. split; [eauto|]. split; [reflexivity|].
    split; [reflexivity|]. split.
    + intros pid' Hne. destruct (String.eqb_spec pid pid'); [congruence | reflexivity].
    + intros p' Hin. apply elem_of_cons in Hin as [->|Hin]; [now right|].
      left. now apply elem_of_cons; right.
  - destruct (update_first pid nm trs l) as [l'|]; [|exact IH].
    destruct IH as (H1 & H2 & H3 & H4 & H5). simpl.
    destruct (String.eqb_spec (playlist_id a) pid); [contradiction|].
    split; [exact H1|]. split; [exact H2|]. split; [now rewrite H3|]. split.
    + intros pid' Hne. destruct (String.eqb (playlist_id a) pid'); [reflexivity|].
      now apply H4.
    + intros p' Hin. apply elem_of_cons in Hin as [->|Hin].
      * left. now apply elem_of_cons; left.
      * destruct (H5 p' Hin) as [Hl|Hr]; [|now right].
        left. now apply elem_of_cons; right.
Qed.

(** X6. [update_playlist] returns [True] exactly when the name and the
    track list are not empty and the identifier is known.  Then the
    identifier finds a playlist with the new name and tracks, the
    identifiers of the collection and their order are unchanged, and so
    is what every other identifier finds.  When it returns [False] the
    collection is unchanged. *)
Theorem update_playlist_spec (pid nm : string) (trs : list Track)
    (pls : list Playlist) :
  let r := update_playlist pid nm trs pls in
  (fst r = true <-> rejected nm trs = false /\ is_Some (lookup pid pls)) /\
  (fst r = false -> snd r = pls) /\
  (fst r = true ->
     lookup pid (snd r) = Some {| playlist_id := pid; name := nm; tracks := trs |} /\
     List.map playlist_id (snd r) = List.map playlist_id pls /\
     (forall pid', pid' <> pid -> lookup pid' (snd r) = lookup pid' pls)).
Proof.
  simpl. unfold update_playlist.
  pose proof (update_first_spec pid nm trs pls) as U.
  destruct (rejected nm trs); simpl.
  - split; [|split]; [split; [discriminate | intros [? _]; discriminate] | reflexivity
                     | discriminate].
  - destruct (update_first pid nm trs pls) as [pls'|]; simpl.
    + destruct U as (H1 & H2 & H3 & H4 & _).
      split; [|split]; [split; [now split | reflexivity] | discriminate | now split].
    + split; [|split]; [|reflexivity | discriminate].
      split; [discriminate|]. intros [_ [p0 Hp]]. congruence.
Qed.

Lemma delete_playlist_forgets (pid : string) (pls : list Playlist) :
  lookup pid (snd (delete_playlist pid pls)) = None.
Proof.
  unfold delete_playlist, lookup. simpl.
  induction pls as [|a l IH]; simpl; [reflexivity|].
  destruct (String.eqb (playlist_id a) pid) eqn:Ha; simpl; [exact IH|].
  now rewrite Ha.
Qed.

(** X7. [delete_playlist] answers whether the identifier was known and
    leaves no playlist under it; what every other identifier finds is
    unchanged, and deleting an unknown identifier changes nothing. *)
Theorem delete_playlist_spec (pid : string) (pls : list Playlist) :
  let r := delete_playlist pid pls in
  (fst r = true <-> is_Some (lookup pid pls)) /\
  lookup pid (snd r) = None /\
  (forall pid', pid' <> pid -> lookup pid' (snd r) = lookup pid' pls) /\
  (lookup pid pls = None -> r = (false, pls)).
Proof.
  simpl. unfold delete_playlist. simpl. rewrite filter_length_lt.
  assert (E : existsb (fun p => negb (negb (String.eqb (playlist_id p) pid))) pls = true
              <-> is_Some (lookup pid pls)).
  { unfold lookup. induction pls as [|a l IH]; simpl.
    - split; [discriminate | intros [? ?]; discriminate].
    - rewrite negb_involutive. destruct (String.eqb (playlist_id a) pid); simpl.
      + split; eauto.
      + exact IH. }
  split; [exact E|]. split; [|split].
  - exact (delete_playlist_forgets pid pls).
  - intros pid' Hne. clear E. unfold lookup.
    induction pls as [|a l IH]; simpl; [reflexivity|].
    destruct (String.eqb_spec (playlist_id a) pid) as [Ea|Na]; simpl.
    + destruct (String.eqb_spec (playlist_id a) pid'); [congruence | exact IH].
    + now rewrite IH.
  - intros Hnone.
    assert (F : existsb (fun p => negb (negb (String.eqb (playlist_id p) pid))) pls = false).
    { destruct (existsb _ pls) eqn:Hx; [|reflexivity].
      destruct (proj1 E eq_refl) as [p0 Hp]. congruence. }
    rewrite F. f_equal. now apply filter_all.
Qed.

(** X8. The three operations on the collection keep every playlist with
    a name and at least one track: no operation of the player stores an
    empty playlist. *)
Theorem playlists_stay_well_formed (new_id pid nm : string) (trs : list Track)
    (pls : list Playlist) :
  Forall well_formed pls ->
  Forall well_formed (snd (create_playlist new_id nm trs pls)) /\
  Forall well_formed (snd (update_playlist pid nm trs pls)) /\
  Forall well_formed (snd (delete_playlist pid pls)).
Proof.
  intros Hwf. split; [|split].
  - unfold create_playlist. destruct (rejected nm trs) eqn:Hr; simpl; [exact Hwf|].
    apply Forall_app. split; [exact Hwf|]. constructor; [|constructor].
    exact (rejected_false nm trs Hr).
  - unfold update_playlist. destruct (rejected nm trs) eqn:Hr; simpl; [exact Hwf|].
    pose proof (update_first_spec pid nm trs pls) as U.
    destruct (update_first pid nm trs pls) as [pls'|]; simpl; [|exact Hwf].
    destruct U as (_ & _ & _ & _ & H5).
    apply List.Forall_forall. intros p' Hin.
    assert (Hin' : p' ∈ pls') by (apply list_elem_of_In; exact Hin).
    destruct (H5 p' Hin') as [Hold| ->].
    + apply (proj1 (List.Forall_forall _ _) Hwf). apply list_elem_of_In. exact Hold.
    + exact (rejected_false nm trs Hr).
  - simpl. apply List.Forall_forall. intros p' Hin.
    apply filter_In in Hin as [Hin _].
    exact (proj1 (List.Forall_forall _ _) Hwf p' Hin).
Qed.

(** *** Runs on the sample tracks *)

Import Samples.

Lemma add_to_favorites_idempotent_witness :
  add_to_favorites track_a [track_b] = (true, [track_b; track_a]) /\
  add_to_favorites track_a (snd (add_to_favorites track_a [track_b])) =
    (false, [track_b; track_a]).
Proof.
  destruct (add_to_favorites_idempotent track_a track_a [track_b] eq_refl)
    as (_ & _ & H3 & H4).
  split; [reflexivity|].
  rewrite (surjective_pairing (add_to_favorites track_a _)), H3, H4. reflexivity.
Defined.

Lemma favorites_ids_stay_distinct_witness :
  NoDup (List.map track_id (snd (add_to_favorites track_c [track_a; track_b]))) /\
  NoDup (List.map track_id (snd (remove_from_favorites "a" [track_a; track_b]))).
Proof.
  apply (favorites_ids_stay_distinct track_c "a" [track_a; track_b]).
  simpl. apply NoDup_cons. split; [|apply NoDup_singleton].
  intros H. apply list_elem_of_singleton in H. discriminate.
Defined.

Lemma add_then_remove_favorite_witness :
  remove_from_favorites "c" (snd (add_to_favorites track_c [track_a; track_b])) =
  (true, [track_a; track_b]).
Proof.
  exact (proj2 (add_then_remove_favorite track_c [track_a; track_b] eq_refl)).
Defined.

Lemma playlists_stay_well_formed_witness :
  Forall well_formed (snd (create_playlist "p9" "New" [track_c] [mix; duo])) /\
  Forall well_formed (snd (update_playlist "p2" "New" [track_c] [mix; duo])) /\
  Forall well_formed (snd (delete_playlist "p2" [mix; duo])).
Proof.
  apply (playlists_stay_well_formed "p9" "p2").
  - repeat constructor; discriminate.
Defined.

End CollectionFacts.

(** ** Polling for the end of a track *)

Module Polling.

Import MusicPlayer.

Definition with_is_playing (b : bool) (s : t) : t :=
  {| player := player s;
     is_playing := b; current_track := current_track s;
     current_duration := current_duration s; stream_cache := stream_cache s;
     volume := volume s; playlists := playlists s;
     current_playlist := current_playlist s;
     current_playlist_index := current_playlist_index s;
     visualizer := visualizer s |}.

(** [state == vlc.State.Ended] *)
Definition is_ended (state : AudioVisualizer.VlcState) : bool :=
  match state with
  | AudioVisualizer.Ended => true
  | _ => false
  end.

(** The test [track_ended] of [check_playback_status]; [state] and
    [time_ms] are what [player.get_state()] and [player.get_time()]
    answer. *)
Definition track_ended (state : AudioVisualizer.VlcState) (time_ms : Z) (s : t) : bool :=
  let current_time := get_current_time time_ms s in
  is_ended state ||
  ((0 <? current_duration s) && (current_duration s - 1 <=? current_time)).

(** Whether [check_playback_status] returns at its first test. *)
Definition idle (s : t) : bool :=
  negb (is_playing s) ||
  match current_playlist s with
  | None => true
  | Some _ => false
  end.

Section Backends.

Variable ydl_extract : string -> option string.
Variable vlc_raises : string -> bool.

(** [check_playback_status]: the session it leaves, and [Raise] when the
    call of [play_next_in_playlist] raises; [None] when that call exhausts
    [fuel]. *)
Definition check_playback_status (fuel : nat) (state : AudioVisualizer.VlcState)
    (time_ms : Z) (s : t) : option (result unit * t) :=
  if idle s then Some (Ret tt, s)
  else if track_ended state time_ms s then
    match play_next_in_playlist ydl_extract vlc_raises fuel
            (with_is_playing false s) with
    | Some (Ret _, s') => Some (Ret tt, s')
    | Some (Raise, s') => Some (Raise, s')
    | None => None
    end
  else Some (Ret tt, s).

End Backends.

End Polling.

Module SessionFacts.

Import MusicPlayer Collections Polling.

Section Backends.

Variable ydl_extract : string -> option string.
Variable vlc_raises : string -> bool.

Local Abbreviation play_track := (MusicPlayer.play_track ydl_extract vlc_raises).
Local Abbreviation play_playlist_track :=
  (MusicPlayer.play_playlist_track ydl_extract vlc_raises).
Local Abbreviation play_next_attempt :=
  (MusicPlayer.play_next_attempt ydl_extract vlc_raises).
Local Abbreviation play_next_in_playlist :=
  (MusicPlayer.play_next_in_playlist ydl_extract vlc_raises).
Local Abbreviation check_playback_status :=
  (Polling.check_playback_status ydl_extract vlc_raises).

(** *** The locator cache *)

(** X9. Once [extract_stream_url] has returned a locator, every later
    call for a URL with the same video identifier returns that locator
    from the cache and leaves the session as it is, whatever the resolver
    would answer: the resolver is not asked again. *)
Theorem extract_stream_url_cached (u : string) (s s' : t) (loc : string) :
  extract_stream_url ydl_extract u s = (Some loc, s') ->
  Py.truthy loc = true ->
  forall (ydl' : string -> option string) (u' : string),
    video_id u' = video_id u ->
    extract_stream_url ydl' u' s' = (Some loc, s').
Proof.
  unfold extract_stream_url. intros Hx Ht ydl' u' Hid. rewrite Hid.
  destruct (stream_cache s !! video_id u) as [cached|] eqn:Hc.
  - injection Hx as <- <-. now rewrite Hc.
  - destruct (ydl_extract u) as [l|]; [|discriminate].
    destruct (Py.truthy l) eqn:Hl.
    + injection Hx as <- <-. simpl. now rewrite lookup_insert_eq.
    + injection Hx as <- <-. congruence.
Qed.

(** *** [play_track] and [stop] *)

(** X10. When the resolution of the URL answers a locator that is not
    empty and VLC does not raise on it, [play_track] returns [True] with
    the title and the duration recorded, the playing flag set, VLC loaded
    with that locator at the session's volume, the locator cached under
    the video identifier and the visualizer cleared; the continuation
    context is kept when [from_playlist] is true and cleared otherwise. *)
Theorem play_track_success_spec (u ttl : string) (d : Z) (fp : bool) (s : t)
    (loc : string) :
  fst (extract_stream_url ydl_extract u s) = Some loc ->
  Py.truthy loc = true ->
  vlc_raises loc = false ->
  let s' := snd (play_track u ttl d fp s) in
  fst (play_track u ttl d fp s) = Ret true /\
  current_track s' = Some ttl /\ current_duration s' = d /\ is_playing s' = true /\
  player s' = {| media := Some loc; audio_volume := volume s; started := true |} /\
  volume s' = volume s /\
  stream_cache s' !! video_id u = Some loc /\
  visualizer s' = AudioVisualizer.clear_immediately <$> visualizer s /\
  current_playlist s' = (if fp then current_playlist s else None) /\
  current_playlist_index s' = (if fp then current_playlist_index s else -1).
Proof.
  intros Hx Ht Hv. simpl.
  rewrite PlayerFacts.play_track_unfold.
  set (s1 := clear_visualizer (stop (negb fp) s)).
  assert (Hx1 : fst (extract_stream_url ydl_extract u s1) = Some loc).
  { rewrite (PlayerFacts.extract_answer_cache ydl_extract u s s1); [exact Hx | reflexivity]. }
  assert (Hc : stream_cache (snd (extract_stream_url ydl_extract u s1)) !! video_id u
               = Some loc).
  { revert Hx1. unfold extract_stream_url.
    destruct (stream_cache s1 !! video_id u) as [cached|] eqn:Hc; simpl.
    - now intros [= ->].
    - destruct (ydl_extract u) as [l|]; simpl; [|discriminate].
      destruct (Py.truthy l) eqn:Hl; simpl; intros [= ->]; [|congruence].
      now rewrite lookup_insert_eq. }
  destruct (PlayerFacts.extract_touches_cache_only ydl_extract u s1) as (c & Hs & _).
  rewrite Hs in Hc |- *. rewrite Hx1, Ht, Hv. simpl. simpl in Hc.
  destruct fp; repeat split; try reflexivity; exact Hc.
Qed.

(** [stop] is idempotent; after it the playing flag is off, no track
    is loaded and the elapsed time reads 0 whatever VLC answers; the
    volume and the locator cache are kept, and the continuation context is
    kept exactly when [clear_playlist] is false. *)
Lemma stop_spec (b : bool) (s : t) (time_ms : Z) :
  stop b (stop b s) = stop b s /\
  is_playing (stop b s) = false /\ current_track (stop b s) = None /\
  get_current_time time_ms (stop b s) = 0 /\
  volume (stop b s) = volume s /\ stream_cache (stop b s) = stream_cache s /\
  current_playlist (stop b s) = (if b then None else current_playlist s) /\
  current_playlist_index (stop b s) = (if b then -1 else current_playlist_index s).
Proof. destruct b; repeat split; reflexivity. Qed.

(** *** [play_playlist_track] *)

(** X11. [play_playlist_track] returns [False] and leaves the session
    untouched when the identifier finds no playlist or the index is at or
    beyond the number of its tracks (so always on a playlist without
    tracks, for an index that is not negative); for an index within the
    tracks it binds the playlist and the cursor, and the outcome is that
    of [play_track] on the track at the index, in playlist context. *)
Theorem play_playlist_track_spec (pid : string) (i : Z) (s : t) :
  (lookup pid (playlists s) = None -> play_playlist_track pid i s = (Ret false, s)) /\
  (forall pl, lookup pid (playlists s) = Some pl ->
     Z.of_nat (length (tracks pl)) <= i ->
     play_playlist_track pid i s = (Ret false, s)) /\
  (forall pl track, lookup pid (playlists s) = Some pl ->
     0 <= i -> tracks pl !! Z.to_nat i = Some track ->
     play_playlist_track pid i s =
       play_track (url track) (title track) (duration track) true
         (with_context (Some pl) i s) /\
     current_playlist (snd (play_playlist_track pid i s)) = Some pl /\
     current_playlist_index (snd (play_playlist_track pid i s)) = i).
Proof.
  unfold MusicPlayer.play_playlist_track, find_playlist, lookup.
  split; [|split].
  - now intros ->.
  - intros pl -> Hi. destruct (Z.leb_spec (Z.of_nat (length (tracks pl))) i); [reflexivity|lia].
  - intros pl track -> Hi Ht.
    assert (Hlt : i < Z.of_nat (length (tracks pl))).
    { apply lookup_lt_Some in Ht. lia. }
    destruct (Z.leb_spec (Z.of_nat (length (tracks pl))) i); [lia|].
    destruct (PlayerFacts.index_in_range (tracks pl) i (conj Hi Hlt)) as [-> _].
    rewrite Ht. split; [reflexivity|].
    destruct (PlayerFacts.play_track_frame ydl_extract vlc_raises (url track) (title track)
                (duration track) true (with_context (Some pl) i s)) as (F1 & F2 & _).
    now rewrite F1, F2.
Qed.

(** X12. A deleted playlist cannot be started: after [delete_playlist],
    [play_playlist_track] on its identifier returns [False] and changes
    nothing, whatever the index.  The deletion itself leaves the
    continuation context of the session as it was. *)
Theorem play_deleted_playlist (pid : string) (i : Z) (s : t) :
  let s' := snd (session_delete_playlist pid s) in
  play_playlist_track pid i s' = (Ret false, s') /\
  current_playlist s' = current_playlist s /\
  current_playlist_index s' = current_playlist_index s.
Proof.
  cbv zeta. split; [|split; reflexivity].
  set (s' := snd (session_delete_playlist pid s)).
  assert (Hn : lookup pid (playlists s') = None)
    by exact (CollectionFacts.delete_playlist_forgets pid (playlists s)).
  unfold MusicPlayer.play_playlist_track, find_playlist.
  unfold lookup in Hn. now rewrite Hn.
Qed.

(** *** Auto-advance and the collection *)

Lemma play_track_with_playlists (pls : list Playlist) (u ttl : string) (d : Z)
    (fp : bool) (s : t) :
  play_track u ttl d fp (with_playlists pls s) =
  (fst (play_track u ttl d fp s), with_playlists pls (snd (play_track u ttl d fp s))).
Proof.
  unfold MusicPlayer.play_track, extract_stream_url. simpl.
  destruct (stream_cache s !! video_id u) as [cached|].
  - destruct (Py.truthy cached); [destruct (vlc_raises cached)|]; reflexivity.
  - destruct (ydl_extract u) as [l|]; [|reflexivity].
    destruct (Py.truthy l) eqn:Hl; [|now rewrite Hl].
    rewrite Hl. destruct (vlc_raises l); reflexivity.
Qed.

Lemma play_next_attempt_with_playlists (pls : list Playlist) (s : t) :
  play_next_attempt (with_playlists pls s) =
  match play_next_attempt s with
  | Done r s' => Done r (with_playlists pls s')
  | Retry s' => Retry (with_playlists pls s')
  end.
Proof.
  unfold MusicPlayer.play_next_attempt. simpl.
  destruct (current_playlist s) as [pl|]; [|reflexivity].
  destruct (tracks pl) as [|t0 rest]; [reflexivity|].
  set (n := Z.of_nat (length (t0 :: rest))).
  set (i := (current_playlist_index s + 1) mod n).
  destruct (Py.index (t0 :: rest) i) as [track|]; [|reflexivity].
  change (with_player (vlc_stop (player s))
            (with_context (Some pl) i (with_playlists pls s)))
    with (with_playlists pls
            (with_player (vlc_stop (player s)) (with_context (Some pl) i s))).
  rewrite play_track_with_playlists.
  destruct (MusicPlayer.play_track ydl_extract vlc_raises (url track) (title track)
              (duration track) true
              (with_player (vlc_stop (player s)) (with_context (Some pl) i s)))
    as [[success|] s3]; simpl; [reflexivity|].
  now destruct (1 <? n).
Qed.

(** X13. Auto-advance reads the bound playlist, never the collection: on
    a session whose collection has been replaced (a playlist created or
    deleted, the bound one included) [play_next_in_playlist] returns the
    same result and reaches the same session, collection apart. *)
Theorem play_next_ignores_collection (fuel : nat) (pls : list Playlist) (s : t) :
  play_next_in_playlist fuel (with_playlists pls s) =
  match play_next_in_playlist fuel s with
  | Some (r, s') => Some (r, with_playlists pls s')
  | None => None
  end.
Proof.
  revert s. induction fuel as [|fuel IH]; intros s; [reflexivity|].
  cbn [MusicPlayer.play_next_in_playlist].
  rewrite play_next_attempt_with_playlists.
  destruct (play_next_attempt s) as [r s'|s']; [reflexivity | apply IH].
Qed.

(** *** Polling *)

(** The idle branch: [check_playback_status] leaves the session as it is
    when nothing plays, when no playlist is bound, or when the track has
    not ended. *)
Lemma check_playback_status_idle (fuel : nat) (state : AudioVisualizer.VlcState)
    (time_ms : Z) (s : t) :
  is_playing s = false \/ current_playlist s = None \/
  track_ended state time_ms s = false ->
  check_playback_status fuel state time_ms s = Some (Ret tt, s).
Proof.
  unfold Polling.check_playback_status, idle.
  intros [Hp | [Hc | He]].
  - now rewrite Hp.
  - rewrite Hc. now rewrite orb_true_r.
  - rewrite He. now destruct (negb (is_playing s) || _).
Qed.

(** X15. While a track plays and VLC does not report the ended state,
    the track counts as ended exactly when its duration [d] is known
    ([d > 0]) and either the elapsed whole seconds have reached [d - 1],
    or the elapsed time is unknown (-1) and [d = 1].  A track of unknown
    duration never ends by time. *)
Theorem track_ended_by_time (state : AudioVisualizer.VlcState) (time_ms : Z) (s : t) :
  is_playing s = true ->
  is_ended state = false ->
  (track_ended state time_ms s = true <->
   0 < current_duration s /\
   ((time_ms <> -1 /\ current_duration s - 1 <= time_ms / 1000) \/
    (time_ms = -1 /\ current_duration s = 1))).
Proof.
  intros Hp Hs. unfold track_ended, get_current_time. rewrite Hp, Hs. simpl.
  destruct (Z.ltb_spec 0 (current_duration s)) as [Hd|Hd]; simpl.
  2:{ split; [discriminate | lia]. }
  destruct (Z.eqb_spec time_ms (-1)) as [E|N]; simpl.
  - destruct (Z.leb_spec (current_duration s - 1) 0); split; intros; try lia; try easy.
  - destruct (Z.leb_spec (current_duration s - 1)
                (Z.min (time_ms / 1000) (current_duration s)));
      split; intros; try lia; try easy.
Qed.

(** X16. When the bound track has ended and every track of the playlist
    resolves and plays, one poll starts the next track: the cursor moves
    to [(cursor + 1) mod n], that track's title and duration are loaded,
    the playing flag is on and the playlist stays bound.  On a playlist
    of one track the same track is started again. *)
Theorem check_playback_status_advances (state : AudioVisualizer.VlcState)
    (time_ms : Z) (s : t) (pl : Playlist) :
  is_playing s = true ->
  current_playlist s = Some pl ->
  tracks pl <> [] ->
  track_ended state time_ms s = true ->
  cache_ok s ->
  PlayerFacts.all_succeed ydl_extract vlc_raises pl ->
  exists s' track,
    check_playback_status 1 state time_ms s = Some (Ret tt, s') /\
    current_playlist s' = Some pl /\
    current_playlist_index s' =
      (current_playlist_index s + 1) mod Z.of_nat (length (tracks pl)) /\
    tracks pl !! Z.to_nat (current_playlist_index s') = Some track /\
    current_track s' = Some (title track) /\
    current_duration s' = duration track /\
    is_playing s' = true.
Proof.
  intros Hp Hc Hne He Hok [Hy Hv].
  set (n := Z.of_nat (length (tracks pl))).
  set (i := (current_playlist_index s + 1) mod n).
  assert (Hi : 0 <= i < n).
  { apply PlayerFacts.next_cursor_in_range. now destruct (tracks pl). }
  destruct (PlayerFacts.index_in_range (tracks pl) i Hi) as [_ [track Ht]].
  set (s0 := with_is_playing false s).
  pose proof (PlayerFacts.play_next_attempt_unfold ydl_extract vlc_raises s0 pl track
                Hc Ht) as Hu.
  cbv zeta in Hu.
  change (current_playlist_index s0) with (current_playlist_index s) in Hu.
  fold n i in Hu.
  set (s2 := with_player (vlc_stop (player s0)) (with_context (Some pl) i s0)) in Hu.
  assert (Hin : track ∈ tracks pl) by (eapply list_elem_of_lookup_2; exact Ht).
  pose proof (PlayerFacts.play_track_success ydl_extract vlc_raises (url track)
                (title track) (duration track) true s2 Hok (Hy track Hin) Hv) as Hs.
  pose proof (PlayerFacts.play_track_frame ydl_extract vlc_raises (url track)
                (title track) (duration track) true s2) as (F1 & F2 & _).
  pose proof (PlayerFacts.play_track_loaded ydl_extract vlc_raises (url track)
                (title track) (duration track) true s2) as L.
  cbv zeta in L. rewrite Hs in L. destruct L as (L1 & L2 & L3).
  destruct (MusicPlayer.play_track ydl_extract vlc_raises (url track) (title track)
              (duration track) true s2) as [r s3] eqn:Hpt.
  simpl in Hs, F1, F2, L1, L2, L3. subst r.
  exists s3, track.
  unfold Polling.check_playback_status, idle. rewrite Hp, Hc, He. simpl.
  fold s0. rewrite Hu. simpl in F1, F2.
  split; [reflexivity|]. split; [exact F1|]. split; [exact F2|].
  split; [rewrite F2; exact Ht|]. split; [exact L1|]. split; [exact L2 | exact L3].
Qed.

(** X17. A failed advance stalls the playlist.  When the bound track has
    ended and the next track resolves to no locator, the poll leaves the
    playing flag off and no track loaded, with the playlist still bound
    and the cursor on the unresolved track; and from then on every poll,
    whatever VLC answers, leaves the session as it is. *)
Theorem check_playback_status_stalls (state : AudioVisualizer.VlcState)
    (time_ms : Z) (s : t) (pl : Playlist) (track : Track) :
  is_playing s = true ->
  current_playlist s = Some pl ->
  track_ended state time_ms s = true ->
  let i := (current_playlist_index s + 1) mod Z.of_nat (length (tracks pl)) in
  tracks pl !! Z.to_nat i = Some track ->
  no_locator (fst (extract_stream_url ydl_extract (url track) s)) = true ->
  exists s',
    check_playback_status 1 state time_ms s = Some (Ret tt, s') /\
    is_playing s' = false /\ current_track s' = None /\
    current_playlist s' = Some pl /\ current_playlist_index s' = i /\
    forall fuel state' time_ms',
      check_playback_status fuel state' time_ms' s' = Some (Ret tt, s').
Proof.
  intros Hp Hc He i Ht Hno.
  set (s0 := with_is_playing false s).
  pose proof (PlayerFacts.play_next_attempt_unfold ydl_extract vlc_raises s0 pl track
                Hc Ht) as Hu.
  cbv zeta in Hu.
  change (current_playlist_index s0) with (current_playlist_index s) in Hu.
  fold i in Hu.
  set (s2 := with_player (vlc_stop (player s0)) (with_context (Some pl) i s0)) in Hu.
  assert (Hno2 : no_locator (fst (extract_stream_url ydl_extract (url track)
                    (clear_visualizer (stop false s2)))) = true).
  { rewrite (PlayerFacts.extract_answer_cache ydl_extract (url track) s);
      [exact Hno | reflexivity]. }
  pose proof (PlayerFacts.play_track_unfold ydl_extract vlc_raises (url track)
                (title track) (duration track) true s2) as Hpt.
  cbv zeta in Hpt. simpl negb in Hpt.
  rewrite (PlayerFacts.extract_failure_is_pure ydl_extract _ _ Hno2) in Hpt.
  assert (Hres : MusicPlayer.play_track ydl_extract vlc_raises (url track) (title track)
                   (duration track) true s2 =
                 (Ret false, clear_visualizer (stop false s2))).
  { rewrite Hpt.
    destruct (fst (extract_stream_url ydl_extract (url track)
                     (clear_visualizer (stop false s2)))) as [loc|];
      simpl in Hno2; [|reflexivity].
    destruct (Py.truthy loc); [discriminate | reflexivity]. }
  rewrite Hres in Hu.
  exists (clear_visualizer (stop false s2)).
  split.
  - unfold Polling.check_playback_status, idle. rewrite Hp, Hc, He. simpl.
    fold s0. now rewrite Hu.
  - repeat split; try reflexivity.
Qed.

End Backends.

(** *** Runs on the sample sessions *)

Import Samples.

Lemma extract_stream_url_cached_witness :
  let s' := snd (extract_stream_url resolve_all (url track_a) playing_session) in
  extract_stream_url resolve_none "https://youtu.be/a" s' =
  (Some ("stream:" +:+ url track_a)%string, s').
Proof.
  intros s'.
  apply (extract_stream_url_cached resolve_all (url track_a) playing_session s'
           ("stream:" +:+ url track_a)%string); reflexivity.
Defined.

Lemma play_track_success_spec_witness :
  let s := bound_session mix 0 "Song A" 125 in
  let r := MusicPlayer.play_track resolve_all vlc_fine (url track_b) (title track_b) 0 false s in
  fst r = Ret true /\ current_track (snd r) = Some "Song B"%string /\
  media (player (snd r)) = Some ("stream:" +:+ url track_b)%string /\
  current_playlist (snd r) = None.
Proof.
  intros s r.
  destruct (play_track_success_spec resolve_all vlc_fine (url track_b) (title track_b) 0
              false s ("stream:" +:+ url track_b)%string eq_refl eq_refl eq_refl)
    as (H1 & H2 & _ & _ & H5 & _ & _ & _ & H9 & _).
  split; [exact H1|]. split; [exact H2|]. split; [|exact H9].
  exact (f_equal media H5).
Defined.

Lemma check_playback_status_idle_witness :
  Polling.check_playback_status resolve_all vlc_fine 1 AudioVisualizer.Ended 0
    (MusicPlayer.init [mix]) = Some (Ret tt, MusicPlayer.init [mix]).
Proof.
  apply check_playback_status_idle. left. reflexivity.
Defined.

Lemma track_ended_by_time_witness :
  track_ended AudioVisualizer.Playing 124000 playing_session = true /\
  track_ended AudioVisualizer.Playing 123999 playing_session = false.
Proof.
  split.
  - apply (track_ended_by_time AudioVisualizer.Playing 124000 playing_session);
      [reflexivity | reflexivity |].
    split; [reflexivity|]. left. split; [discriminate|]. now vm_compute.
  - reflexivity.
Defined.

Lemma check_playback_status_advances_witness :
  exists s',
    Polling.check_playback_status resolve_all vlc_fine 1 AudioVisualizer.Ended 125000
      (bound_session solo 0 "Song A" 125) = Some (Ret tt, s') /\
    current_playlist_index s' = 0 /\ current_track s' = Some "Song A"%string /\
    is_playing s' = true.
Proof.
  destruct (check_playback_status_advances resolve_all vlc_fine AudioVisualizer.Ended
              125000 (bound_session solo 0 "Song A" 125) solo)
    as (s' & track & H1 & _ & H3 & H4 & H5 & _ & H7).
  - reflexivity.
  - reflexivity.
  - discriminate.
  - reflexivity.
  - now apply PlayerFacts.empty_cache_ok.
  - split; [|reflexivity]. intros track _. now exists ("stream:" +:+ url track)%string.
  - exists s'. split; [exact H1|]. split; [exact H3|]. split; [|exact H7].
    rewrite H3 in H4. simpl in H4. injection H4 as <-. exact H5.
Defined.

Lemma check_playback_status_stalls_witness :
  exists s',
    Polling.check_playback_status resolve_all_but_b vlc_fine 1 AudioVisualizer.Ended 0
      (bound_session mix 0 "Song A" 125) = Some (Ret tt, s') /\
    is_playing s' = false /\ current_playlist_index s' = 1 /\
    Polling.check_playback_status resolve_all_but_b vlc_fine 1 AudioVisualizer.Ended 0 s'
      = Some (Ret tt, s').
Proof.
  destruct (check_playback_status_stalls resolve_all_but_b vlc_fine AudioVisualizer.Ended
              0 (bound_session mix 0 "Song A" 125) mix track_b)
    as (s' & H1 & H2 & _ & _ & H5 & H6); try reflexivity.
  exists s'. split; [exact H1|]. split; [exact H2|]. split; [exact H5 | apply H6].
Defined.

End SessionFacts.

(** ** More on the visualizer *)

Module VisualizerMore.

Import AudioVisualizer.

(** A visualizer as [__init__] builds it, one bar apart: as many levels as
    [bars] says, and not a single bar (for which the frequency ratio
    divides by zero). *)
Definition well_formed (v : t) : Prop :=
  length (frequency_bands v) = bars v /\ bars v <> 1%nat.

Lemma synth_loop_runs (sin cos : float -> float) (nbars : nat) (volume time_ms : Z)
    (idx : list nat) :
  forall bands,
    nbars <> 1%nat ->
    (forall i, i ∈ idx -> (i < length bands)%nat) ->
    exists l, synth_loop sin cos nbars volume time_ms idx bands = Ret l /\
              length l = length bands.
Proof.
  induction idx as [|i rest IH]; intros bands Hn Hin; simpl.
  - now exists bands.
  - destruct (Z.eqb_spec (Z.of_nat nbars - 1) 0) as [E|_]; [lia|].
    assert (Hi : (i < length bands)%nat) by (apply Hin; now left).
    destruct (lookup_lt_is_Some_2 bands i Hi) as [cur ->].
    destruct (IH (<[i := smooth (target sin cos nbars volume time_ms i) cur]> bands) Hn)
      as (l & Hl & Hlen).
    + intros j Hj. rewrite length_insert. apply Hin. now right.
    + exists l. split; [exact Hl|]. now rewrite Hlen, length_insert.
Qed.

(** X18. On a visualizer with as many levels as bars, and not exactly one
    bar, [update_from_vlc] never raises and keeps the number of bars and
    of levels, whatever VLC answers and whatever [sin] and [cos]
    compute. *)
Theorem update_from_vlc_total (sin cos : float -> float)
    (player : option MediaPlayerObs) (v : t) :
  well_formed v ->
  exists v', update_from_vlc sin cos player v = Ret v' /\
             bars v' = bars v /\ well_formed v'.
Proof.
  intros [Hlen Hb]. unfold update_from_vlc.
  assert (Z : well_formed (zero_bands v)).
  { split; [|exact Hb]. unfold zero_bands; simpl. now rewrite length_replicate. }
  destruct player as [p|]; [|now exists (with_track (zero_bands v) None)].
  destruct (get_state p) as [[| | | |]|]; try (now exists (zero_bands v)).
  - destruct ((audio_get_volume p <? 0) || (get_time p <=? 0)).
    { exists v. repeat split; assumption. }
    assert (S : exists l, synth_loop sin cos (bars v) (audio_get_volume p) (get_time p)
                            (seq 0 (bars v)) (frequency_bands v) = Ret l /\
                          length l = length (frequency_bands v)).
    { apply synth_loop_runs; [exact Hb|].
      intros i Hi. apply list_elem_of_In, in_seq in Hi. lia. }
    destruct S as (l & Hl & Hll).
    destruct (get_media p) as [media_id|]; simpl.
    + destruct (decide (current_track v = media_id)).
      * rewrite Hl. exists (with_bands v l). repeat split; simpl; congruence.
      * now exists (with_track (zero_bands v) media_id).
    + rewrite Hl. exists (with_bands v l). repeat split; simpl; congruence.
  - exists (fade_bands v). split; [reflexivity|]. split; [reflexivity|].
    split; [|exact Hb]. unfold fade_bands; simpl. now rewrite length_map.
Qed.

Lemma update_from_vlc_total_witness :
  exists v',
    update_from_vlc (fun x => x) (fun x => x)
      (Some (VisualizerFacts.playing_m2 1500)) (init 15) = Ret v' /\
    bars v' = 15%nat.
Proof.
  destruct (update_from_vlc_total (fun x => x) (fun x => x)
              (Some (VisualizerFacts.playing_m2 1500)) (init 15))
    as (v' & H1 & H2 & _).
  - split; [reflexivity | discriminate].
  - exists v'. split; [exact H1 | exact H2].
Defined.

(** X19. A visualizer with a single bar cannot synthesize: whenever an
    update reaches the synthesis (VLC playing, volume not negative,
    elapsed time above 0, media identity unchanged), it raises, the
    frequency ratio [i / (bars - 1)] dividing by zero. *)
Theorem single_bar_raises (sin cos : float -> float) (p : MediaPlayerObs) (v : t) :
  bars v = 1%nat ->
  get_state p = Ret Playing ->
  0 <= audio_get_volume p ->
  0 < get_time p ->
  get_media p = Ret (current_track v) ->
  update_from_vlc sin cos (Some p) v = Raise.
Proof.
  intros Hb Hs Hv Ht Hm. unfold update_from_vlc. rewrite Hs, Hm, Hb.
  destruct (Z.ltb_spec (audio_get_volume p) 0); [lia|].
  destruct (Z.leb_spec (get_time p) 0); [lia|]. simpl.
  destruct (decide (current_track v = current_track v)); [reflexivity | contradiction].
Qed.

Lemma single_bar_raises_witness :
  update_from_vlc (fun x => x) (fun x => x) (Some (VisualizerFacts.playing_m2 1500))
    (with_track (init 1) (Some "m2"%string)) = Raise.
Proof.
  apply single_bar_raises; [reflexivity | reflexivity | simpl; lia | simpl; lia |
                            reflexivity].
Defined.

(** X20. The frame after [clear_immediately] is silent: whether VLC is
    absent, or reports any state with a medium bound, the next update
    leaves every bar at exactly 0 and the number of levels unchanged, for
    any levels before the clearing. *)
Theorem silent_after_clear (sin cos : float -> float)
    (player : option MediaPlayerObs) (v : t) :
  (forall p, player = Some p -> exists m, get_media p = Ret (Some m)) ->
  exists v',
    update_from_vlc sin cos player (clear_immediately v) = Ret v' /\
    Forall (fun x => x = 0%float) (frequency_bands v') /\
    length (frequency_bands v') = length (frequency_bands v).
Proof.
  intros Hm. unfold update_from_vlc.
  set (c := clear_immediately v).
  assert (Hc : Forall (fun x => x = 0%float) (frequency_bands c) /\
               length (frequency_bands c) = length (frequency_bands v)).
  { subst c. simpl. split; [now apply Forall_replicate | apply length_replicate]. }
  assert (Hz : forall m, Forall (fun x => x = 0%float)
                           (frequency_bands (with_track (zero_bands c) m)) /\
                         length (frequency_bands (with_track (zero_bands c) m)) =
                         length (frequency_bands v)).
  { intros m. simpl. split; [now apply Forall_replicate|].
    rewrite length_replicate. exact (proj2 Hc). }
  destruct player as [p|]; [|exists (with_track (zero_bands c) None);
                             split; [reflexivity | apply Hz]].
  destruct (Hm p eq_refl) as [m Hmed]. rewrite Hmed.
  destruct (get_state p) as [[| | | |]|];
    try (exists (zero_bands c); split; [reflexivity | apply (Hz (current_track c))]).
  - destruct ((audio_get_volume p <? 0) || (get_time p <=? 0)).
    + exists c. split; [reflexivity | exact Hc].
    + simpl. exists (with_track (zero_bands c) (Some m)). split; [reflexivity | apply Hz].
  - exists (fade_bands c). split; [reflexivity|]. subst c. simpl.
    assert (F : forall n, List.map (fun x => (x * 0.92)%float) (replicate n 0%float)
                          = replicate n 0%float).
    { induction n as [|n IH]; simpl; [reflexivity|]. now rewrite IH. }
    rewrite F. split; [now apply Forall_replicate | apply length_replicate].
Qed.

Lemma silent_after_clear_witness :
  exists v',
    update_from_vlc (fun x => x) (fun x => x) (Some (VisualizerFacts.playing_m2 50))
      (clear_immediately VisualizerFacts.raised) = Ret v' /\
    frequency_bands v' = [0%float; 0%float].
Proof.
  destruct (silent_after_clear (fun x => x) (fun x => x)
              (Some (VisualizerFacts.playing_m2 50)) VisualizerFacts.raised)
    as (v' & H1 & _).
  - intros p [= <-]. now exists "m2"%string.
  - exists v'. split; [exact H1|].
    assert (E : Ret v' = Ret (with_track (zero_bands (clear_immediately
                                  VisualizerFacts.raised)) (Some "m2"%string)))
      by (rewrite <- H1; reflexivity).
    injection E as ->. reflexivity.
Defined.

End VisualizerMore.

(** ** More of the user interface: the other lists and resizing *)

Module Layout.

Import MusicPlayerUI.

(** [self.mode] *)
Inductive Mode : Type :=
| ModeMain
| ModeSearch
| ModeResults
| ModePlaylistCreate
| ModePlaylistEdit
| ModePlaylistView.

Definition with_selected (i : Z) (u : t) : t :=
  {| selected_index := i;
     prev_selected_index := prev_selected_index u;
     scroll_offset := scroll_offset u;
     visible_lines := visible_lines u;
     is_loading_more := is_loading_more u |}.

Definition with_visible (h : Z) (u : t) : t :=
  {| selected_index := selected_index u;
     prev_selected_index := prev_selected_index u;
     scroll_offset := scroll_offset u;
     visible_lines := h;
     is_loading_more := is_loading_more u |}.

(** [handle_main_input] on the arrow keys.  [main_display_items] is the
    length of that list, [None] while the attribute does not exist (the
    home page has not been drawn with an item yet). *)
Definition handle_main_input (main_display_items : option nat) (key : Key) (u : t)
    : bool * t :=
  match main_display_items with
  | None | Some O => (false, u)
  | Some (S _ as n) =>
      match key with
      | KEY_UP =>
          let new_index := Z.max 0 (selected_index u - 1) in
          if negb (new_index =? selected_index u)
          then adjust_viewport (select new_index u)
          else (false, u)
      | KEY_DOWN =>
          let new_index := Z.min (Z.of_nat n - 1) (selected_index u + 1) in
          if negb (new_index =? selected_index u)
          then adjust_viewport (select new_index u)
          else (false, u)
      end
  end.

(** [handle_playlist_view_input] on the arrow keys.  [viewing] is the
    number of tracks of [current_viewing_playlist], [None] when no
    playlist is being viewed.  The previous index is a local variable
    here. *)
Definition handle_playlist_view_input (viewing : option nat) (key : Key) (u : t)
    : bool * t :=
  match viewing with
  | None => (false, u)
  | Some n =>
      match key with
      | KEY_UP =>
          let u' := with_selected (Z.max 0 (selected_index u - 1)) u in
          if negb (selected_index u =? selected_index u')
          then adjust_viewport u'
          else (false, u')
      | KEY_DOWN =>
          let u' := with_selected (Z.min (Z.of_nat n - 1) (selected_index u + 1)) u in
          if negb (selected_index u =? selected_index u')
          then adjust_viewport u'
          else (false, u')
      end
  end.

(** The item count that [update_dimensions] clamps against: the length
    of [main_display_items] once that attribute exists, whatever the
    mode; otherwise by mode. *)
Definition max_items (main_display_items : option nat) (mode : Mode)
    (viewing : option nat) (favorites playlists search_results : nat) : Z :=
  match main_display_items with
  | Some n => Z.of_nat n
  | None =>
      match mode, viewing with
      | ModePlaylistView, Some n => Z.of_nat n
      | ModeMain, _ => Z.of_nat favorites + Z.of_nat playlists
      | ModeResults, _ => Z.of_nat search_results
      | _, _ => 0
      end
  end.

(** [update_dimensions]; [height] is the new terminal height and [items]
    the count above. *)
Definition update_dimensions (height : Z) (items : Z) (u : t) : t :=
  let u1 := with_visible (Z.max 1 (height - 15)) u in
  if 0 <? items then
    let max_scroll := Z.max 0 (items - visible_lines u1) in
    let u2 := with_scroll (Z.min (scroll_offset u1) max_scroll) u1 in
    if items <=? selected_index u2
    then with_selected (Z.max 0 (items - 1)) u2
    else u2
  else u1.

End Layout.

Module LayoutFacts.

Import MusicPlayerUI Layout.

(** X21. On the home page the arrow keys keep the viewport invariant for
    a list of any length: with no item (or before the item list exists)
    they change nothing, otherwise they move the selection within the
    list and scroll as needed. *)
Theorem handle_main_input_viewport (items : option nat) (k : Key) (u : t) :
  let m := match items with Some n => Z.of_nat n | None => 0 end in
  viewport_ok m u ->
  let u' := snd (handle_main_input items k u) in
  visible_lines u' = visible_lines u /\ viewport_ok m u' /\
  (m = 0 -> handle_main_input items k u = (false, u)).
Proof.
  intros m [Hw Hs]. unfold viewport_ok, handle_main_input.
  destruct items as [[|n]|]; simpl; try (repeat split; (reflexivity || lia)).
  subst m. destruct k; ViewportFacts.viewport_cases; lia.
Qed.

Lemma handle_main_input_viewport_witness :
  viewport_ok 2 (snd (handle_main_input (Some 2%nat) KEY_DOWN (enter_results 1))) /\
  scroll_offset (snd (handle_main_input (Some 2%nat) KEY_DOWN (enter_results 1))) = 1.
Proof.
  split; [|reflexivity].
  refine (proj1 (proj2 (handle_main_input_viewport (Some 2%nat) KEY_DOWN
                          (enter_results 1) _))).
  unfold viewport_ok; simpl; lia.
Defined.

(** X22. While a playlist with at least one track is viewed the arrow
    keys keep the viewport invariant, and with no playlist viewed they
    change nothing.  On a playlist without tracks a step down from a
    selection that is not negative selects index -1. *)
Theorem handle_playlist_view_input_viewport (viewing : option nat) (k : Key) (u : t) :
  let m := match viewing with Some n => Z.of_nat n | None => 0 end in
  viewport_ok m u ->
  let u' := snd (handle_playlist_view_input viewing k u) in
  (viewing <> Some O -> visible_lines u' = visible_lines u /\ viewport_ok m u') /\
  (viewing = None -> handle_playlist_view_input viewing k u = (false, u)) /\
  (viewing = Some O -> k = KEY_DOWN -> selected_index u' = -1).
Proof.
  intros m [Hw Hs]. unfold viewport_ok, handle_playlist_view_input.
  destruct viewing as [[|n]|]; simpl.
  - split; [congruence|]. split; [discriminate|].
    intros _ ->. ViewportFacts.viewport_cases; lia.
  - split; [|split; discriminate].
    intros _. subst m. destruct k; ViewportFacts.viewport_cases; lia.
  - split; [|split; [reflexivity | discriminate]].
    intros _. subst m. simpl in *. lia.
Qed.

Lemma handle_playlist_view_input_viewport_witness :
  viewport_ok 3 (snd (handle_playlist_view_input (Some 3%nat) KEY_DOWN (enter_results 2))).
Proof.
  refine (proj2 (proj1 (handle_playlist_view_input_viewport (Some 3%nat) KEY_DOWN
                          (enter_results 2) _) _)).
  - unfold viewport_ok; simpl; lia.
  - discriminate.
Defined.

(** X23. After a resize over a list of [items > 0] entries the viewport
    height is [max(1, height - 15)], the scroll offset has not grown and
    is at most [max(0, items - height')], and the selection is below
    [items], unchanged when it already was; an offset and a selection
    that were not negative stay so.  With no item only the height
    changes. *)
Theorem update_dimensions_clamps (height items : Z) (u : t) :
  let u' := update_dimensions height items u in
  visible_lines u' = Z.max 1 (height - 15) /\
  (0 < items ->
     scroll_offset u' <= scroll_offset u /\
     scroll_offset u' <= Z.max 0 (items - visible_lines u') /\
     selected_index u' < items /\
     (selected_index u < items -> selected_index u' = selected_index u) /\
     (0 <= scroll_offset u -> 0 <= scroll_offset u') /\
     (0 <= selected_index u -> 0 <= selected_index u')) /\
  (items <= 0 ->
     scroll_offset u' = scroll_offset u /\ selected_index u' = selected_index u).
Proof.
  unfold update_dimensions. simpl.
  destruct (Z.ltb_spec 0 items); simpl;
    [destruct (Z.leb_spec items (selected_index u)); simpl|]; repeat split; lia.
Qed.

(** X24. A resize may leave the selection outside the window, but the
    first arrow key that moves the selection in the results list brings
    it back between [scroll_offset] and [scroll_offset + visible_lines],
    the height being the one the resize computed. *)
Theorem arrow_after_resize_restores_window (height items m : Z) (k : Key) (u : t) :
  let u1 := update_dimensions height items u in
  let u2 := snd (handle_results_input m k u1) in
  selected_index u2 <> selected_index u1 ->
  visible_lines u2 = Z.max 1 (height - 15) /\
  scroll_offset u2 <= selected_index u2 < scroll_offset u2 + visible_lines u2.
Proof.
  intros u1 u2 Hmove.
  assert (Hv : visible_lines u1 = Z.max 1 (height - 15)).
  { subst u1. unfold update_dimensions. simpl.
    destruct (0 <? items); simpl; [destruct (items <=? _)|]; reflexivity. }
  assert (Hadj : forall i,
             visible_lines (snd (adjust_viewport (select i u1))) = visible_lines u1 /\
             scroll_offset (snd (adjust_viewport (select i u1))) <=
               selected_index (snd (adjust_viewport (select i u1))) <
               scroll_offset (snd (adjust_viewport (select i u1))) +
               visible_lines (snd (adjust_viewport (select i u1)))).
  { intros i.
    destruct (ViewportFacts.adjust_viewport_window (select i u1)) as (_ & E & W).
    - simpl. lia.
    - split; [exact E | exact W]. }
  revert Hmove. subst u2. unfold handle_results_input.
  destruct k.
  - destruct (negb (Z.max 0 (selected_index u1 - 1) =? selected_index u1)).
    + intros _. rewrite <- Hv. apply Hadj.
    + simpl. congruence.
  - destruct ((selected_index u1 =? m - 1) && negb (is_loading_more u1)).
    + simpl. congruence.
    + destruct (negb (Z.min (m - 1) (selected_index u1 + 1) =? selected_index u1)).
      * intros _. rewrite <- Hv. apply Hadj.
      * simpl. congruence.
Qed.

(** A session of 20 results scrolled to the end in a window of 10 lines. *)
Definition scrolled : t :=
  {| selected_index := 19; prev_selected_index := 18; scroll_offset := 10;
     visible_lines := 10; is_loading_more := false |}.

Lemma arrow_after_resize_restores_window_witness :
  let u1 := update_dimensions 18 20 (with_scroll 2 scrolled) in
  let u2 := snd (handle_results_input 20 KEY_UP u1) in
  (selected_index u1, scroll_offset u1, visible_lines u1) = (19, 2, 3) /\
  (selected_index u2, scroll_offset u2, visible_lines u2) = (18, 16, 3).
Proof.
  intros u1 u2. split; [reflexivity|].
  destruct (arrow_after_resize_restores_window 18 20 20 KEY_UP (with_scroll 2 scrolled))
    as [_ _]; [discriminate | reflexivity].
Defined.

(** X25. Once the home page has been drawn with [k > 0] items,
    [update_dimensions] clamps against [k] in every mode: in the results
    list, however many results it holds, a resize moves a selection at or
    beyond [k] to [k - 1] and an offset beyond [max(0, k - height')] back
    to it. *)
Theorem resize_clamps_against_home_items (k : nat) (mode : Mode) (viewing : option nat)
    (favorites playlists search_results : nat) (height : Z) (u : t) :
  (0 < k)%nat ->
  let items := max_items (Some k) mode viewing favorites playlists search_results in
  let u' := update_dimensions height items u in
  items = Z.of_nat k /\
  (Z.of_nat k <= selected_index u -> selected_index u' = Z.of_nat k - 1) /\
  scroll_offset u' <= Z.max 0 (Z.of_nat k - Z.max 1 (height - 15)).
Proof.
  intros Hk. simpl. split; [reflexivity|].
  unfold update_dimensions. simpl.
  destruct (Z.ltb_spec 0 (Z.of_nat k)); [|lia]. simpl.
  destruct (Z.leb_spec (Z.of_nat k) (selected_index u)); simpl; split; lia.
Qed.

Lemma resize_clamps_against_home_items_witness :
  selected_index
    (update_dimensions 40 (max_items (Some 3%nat) ModeResults None 2 1 20) scrolled) = 2 /\
  scroll_offset
    (update_dimensions 40 (max_items (Some 3%nat) ModeResults None 2 1 20) scrolled) = 0.
Proof.
  destruct (resize_clamps_against_home_items 3 ModeResults None 2 1 20 40 scrolled)
    as (_ & H & _); [lia|].
  split; [|reflexivity]. apply H. simpl. lia.
Defined.

End LayoutFacts.

(** ** Search mode: the ways into the results list *)

Module SearchEntry.

Import MusicPlayerUI Layout.

(** The interface fields that search mode reads and writes, around the
    navigation fields [ui]; [search_results] is
    [self.player.search_results]. *)
Record t : Type := {
  ui : MusicPlayerUI.t;
  mode : Mode;
  search_query : string;
  search_results : list MusicPlayer.Track
}.

Definition with_ui (u : MusicPlayerUI.t) (sc : t) : t :=
  {| ui := u; mode := mode sc; search_query := search_query sc;
     search_results := search_results sc |}.

Definition with_mode (m : Mode) (sc : t) : t :=
  {| ui := ui sc; mode := m; search_query := search_query sc;
     search_results := search_results sc |}.

Definition with_query (q : string) (sc : t) : t :=
  {| ui := ui sc; mode := mode sc; search_query := q;
     search_results := search_results sc |}.

Definition with_results (l : list MusicPlayer.Track) (sc : t) : t :=
  {| ui := ui sc; mode := mode sc; search_query := search_query sc;
     search_results := l |}.

(** [q[:-1]] *)
Fixpoint drop_last (q : string) : string :=
  match q with
  | EmptyString => EmptyString
  | String c EmptyString => EmptyString
  | String c rest => String c (drop_last rest)
  end.

(** [curses.KEY_BACKSPACE] *)
Definition KEY_BACKSPACE : Z := 263.

(** [self.selected_index = 0; self.prev_selected_index = -1;
     self.scroll_offset = 0], lines 1195-1197. *)
Definition reset_selection (u : MusicPlayerUI.t) : MusicPlayerUI.t :=
  {| selected_index := 0; prev_selected_index := -1; scroll_offset := 0;
     visible_lines := visible_lines u; is_loading_more := is_loading_more u |}.

(** [handle_search_input(key)], lines 1182-1224, with the key as the code
    that [getch] returns and [search_youtube] the search backend.  The
    flag is the redraw request that the handler returns. *)
Definition handle_search_input (search_youtube : string -> list MusicPlayer.Track)
    (key : Z) (sc : t) : bool * t :=
  if key =? 10 then
    if Py.truthy (search_query sc) then
      let results := search_youtube (search_query sc) in
      let sc1 := with_results results sc in
      match results with
      | _ :: _ => (true, with_ui (reset_selection (ui sc1)) (with_mode ModeResults sc1))
      | [] => (false, sc1)
      end
    else (false, sc)
  else if key =? 27 then
    match search_results sc with
    | _ :: _ => (false, with_mode ModeResults sc)
    | [] => (false, with_mode ModeMain sc)
    end
  else if (key =? KEY_BACKSPACE) || (key =? 127) then
    (false, with_query (drop_last (search_query sc)) sc)
  else if (32 <=? key) && (key <=? 126) then
    (false, with_query (search_query sc +:+ String (ascii_of_nat (Z.to_nat key)) "") sc)
  else (false, sc).

(** The key [/] outside search mode, lines 1815-1817 of [run]. *)
Definition open_search (sc : t) : t :=
  with_query "" (with_mode ModeSearch sc).

(** The Escape key outside search mode, lines 1843-1849 of [run]. *)
Definition escape_to_main (sc : t) : t :=
  with_ui (with_scroll 0 (with_selected 0 (ui sc)))
    (with_query "" (with_mode ModeMain sc)).

(** [__init__], lines 504-518, on a terminal of [height] lines. *)
Definition init (height : Z) : t :=
  {| ui := {| selected_index := 0; prev_selected_index := -1; scroll_offset := 0;
              visible_lines := Z.max 1 (height - 15); is_loading_more := false |};
     mode := ModeMain; search_query := ""; search_results := [] |}.

(** The keys [keys] in search mode, one call of the handler for each. *)
Definition type_keys (search_youtube : string -> list MusicPlayer.Track)
    (keys : list Z) (sc : t) : t :=
  fold_left (fun sc' key => snd (handle_search_input search_youtube key sc')) keys sc.

(** [n] presses of the down arrow on the home page of [items] entries. *)
Definition main_down (items : nat) (n : nat) (sc : t) : t :=
  with_ui (Nat.iter n (fun u' => snd (handle_main_input (Some items) KEY_DOWN u'))
             (ui sc)) sc.

End SearchEntry.

Module SearchEntryFacts.

Import MusicPlayerUI Layout SearchEntry.

(** A search backend that finds ten results for every query. *)
Definition ten_results (q : string) : list MusicPlayer.Track :=
  replicate 10 Samples.track_a.

(** A session of the interface on a terminal of 25 lines, hence a
    viewport of 10: the key [/], the query [song] typed and sent with
    Enter, which finds ten results; Escape back to the home page, which
    shows 26 entries; 25 presses of the down arrow. *)
Definition home_at_25 : t :=
  main_down 26 25
    (escape_to_main
       (type_keys ten_results [115; 111; 110; 103; 10] (open_search (init 25)))).

(** The Enter key on a query that finds something leaves the results
    list selected at the top, and the viewport invariant then holds after
    every step of every sequence of up/down steps. *)
Lemma search_enter_viewport (search_youtube : string -> list MusicPlayer.Track)
    (sc : t) (keys : list Key) :
  Py.truthy (search_query sc) = true ->
  search_youtube (search_query sc) <> [] ->
  1 <= visible_lines (ui sc) ->
  let sc' := snd (handle_search_input search_youtube 10 sc) in
  let m := Z.of_nat (length (search_results sc')) in
  mode sc' = ModeResults /\
  search_results sc' = search_youtube (search_query sc) /\
  selected_index (ui sc') = 0 /\ scroll_offset (ui sc') = 0 /\
  viewport_ok m (ui sc') /\
  Forall (fun u' => visible_lines u' = visible_lines (ui sc) /\ viewport_ok m u')
         (navigate m keys (ui sc')).
Proof.
  intros Hq Hr Hh. unfold handle_search_input. simpl. rewrite Hq.
  destruct (search_youtube (search_query sc)) as [|x l] eqn:E; [contradiction|].
  cbn zeta. cbn [snd mode ui search_results with_ui with_mode with_results].
  assert (Hok : viewport_ok (Z.of_nat (length (x :: l))) (reset_selection (ui sc))).
  { unfold viewport_ok; simpl. lia. }
  repeat split; try reflexivity; try apply Hok.
  apply (ViewportFacts.navigate_viewport _ keys (reset_selection (ui sc)));
    [simpl; lia | exact Hok].
Qed.

(** C8: a failing run.  In the session [home_at_25] the home page shows
    26 entries on a viewport of 10 lines and ten results are kept from
    the search; entry 25 is selected with the window scrolled to 16, and
    the invariant holds for the 26 entries.  The key [/] opens search
    mode and the Escape key leaves it for the results list, since results
    are kept: the handler changes the mode and leaves the selection at 25
    and the offset at 16, over a list of ten items.  One step down in the
    results list then selects item 9 and scrolls to offset 9, above
    [max(0, 10 - 10) = 0]: the invariant is broken after a navigation
    step.  The Enter key of the same handler, with the same ten results
    found, sets the selection and the offset to 0 and the same step keeps
    the invariant. *)
Theorem viewport_broken_after_escape_entry :
  let sc := snd (handle_search_input ten_results 27 (open_search home_at_25)) in
  let sc_enter := snd (handle_search_input ten_results 10
                         (with_query "song" (open_search home_at_25))) in
  (mode home_at_25 = ModeMain /\ length (search_results home_at_25) = 10%nat /\
   selected_index (ui home_at_25) = 25 /\ scroll_offset (ui home_at_25) = 16 /\
   visible_lines (ui home_at_25) = 10 /\ viewport_ok 26 (ui home_at_25)) /\
  (mode sc = ModeResults /\ length (search_results sc) = 10%nat /\
   ui sc = ui home_at_25) /\
  (exists u',
     navigate 10 [KEY_DOWN] (ui sc) = [u'] /\
     selected_index u' = 9 /\ scroll_offset u' = 9 /\ visible_lines u' = 10 /\
     ~ (0 <= scroll_offset u' <= Z.max 0 (10 - visible_lines u')) /\
     ~ viewport_ok 10 u') /\
  (mode sc_enter = ModeResults /\ length (search_results sc_enter) = 10%nat /\
   selected_index (ui sc_enter) = 0 /\ scroll_offset (ui sc_enter) = 0 /\
   Forall (viewport_ok 10) (navigate 10 [KEY_DOWN] (ui sc_enter))).
Proof.
  intros sc sc_enter. split; [|split; [|split]].
  - split; [reflexivity|]. split; [reflexivity|].
    split; [reflexivity|]. split; [reflexivity|]. split; [reflexivity|].
    unfold viewport_ok. vm_compute. repeat split; discriminate.
  - repeat split; reflexivity.
  - eexists. split; [vm_compute; reflexivity|].
    split; [reflexivity|]. split; [reflexivity|]. split; [reflexivity|].
    split.
    + vm_compute. intros [_ H]. now apply H.
    + unfold viewport_ok. vm_compute. intros [_ [_ H]]. now apply H.
  - split; [reflexivity|]. split; [reflexivity|]. split; [reflexivity|].
    split; [reflexivity|].
    constructor; [|constructor]. unfold viewport_ok. vm_compute.
    repeat split; discriminate.
Qed.

End SearchEntryFacts.

(** ** The scrolling title *)

Module Title.

(** A [string] is a sequence of 8-bit characters and [String.length]
    counts them, where a Python [str] is a sequence of code points: the
    definitions below are those of the source on titles of ASCII
    characters. *)

(** How a slice bound is read against a string of length [n]: a negative
    bound counts from the end, and every bound is brought into
    [0 .. n]. *)
Definition clamp (n x : Z) : Z :=
  if x <? 0 then Z.max 0 (x + n) else Z.min x n.

(** [s[a:b]] *)
Definition slice (s : string) (a b : Z) : string :=
  let n := Z.of_nat (String.length s) in
  let a' := clamp n a in
  let b' := clamp n b in
  String.substring (Z.to_nat a') (Z.to_nat (b' - a')) s.

(** [" " * n] *)
Fixpoint spaces (n : nat) : string :=
  match n with
  | O => EmptyString
  | S n' => String " " (spaces n')
  end.

(** [s.ljust(w)] *)
Definition ljust (w : Z) (s : string) : string :=
  String.append s (spaces (Z.to_nat (w - Z.of_nat (String.length s)))).

(** [title + separator] *)
Definition repeat_unit (title : string) : string := String.append title "   ".

(** [get_scrollable_title(title, max_width)]: the text returned, and
    [self.title_scroll_offset] after the call. *)
Definition get_scrollable_title (title : string) (max_width : Z)
    (title_scroll_offset : Z) : string * Z :=
  if Z.of_nat (String.length title) <=? max_width then (title, 0)
  else
    let unit := repeat_unit title in
    let repeated_title := String.append unit (String.append unit unit) in
    let offset :=
      if Z.of_nat (String.length unit) <=? title_scroll_offset then 0
      else title_scroll_offset in
    let visible_text := slice repeated_title offset (offset + max_width) in
    let visible_text :=
      if Z.of_nat (String.length visible_text) <? max_width
      then ljust max_width visible_text
      else visible_text in
    (visible_text, offset).

(** One animation step of the status line: [update_title_scroll] moves
    the offset by one (the 150 ms having passed) and the status line is
    drawn again. *)
Definition scroll_step (title : string) (max_width : Z) (title_scroll_offset : Z)
    : string * Z :=
  get_scrollable_title title max_width (title_scroll_offset + 1).

(** The offset after [k] animation steps. *)
Fixpoint scroll_steps (title : string) (max_width : Z) (k : nat)
    (title_scroll_offset : Z) : Z :=
  match k with
  | O => title_scroll_offset
  | S k' => snd (scroll_step title max_width
                   (scroll_steps title max_width k' title_scroll_offset))
  end.

End Title.

Module TitleFacts.

Import Title.

Lemma length_append (s t : string) :
  String.length (String.append s t) = (String.length s + String.length t)%nat.
Proof. induction s as [|c s IH]; simpl; [reflexivity | now rewrite IH]. Qed.

Lemma substring_length (s : string) :
  forall n m, (n + m <= String.length s)%nat ->
              String.length (String.substring n m s) = m.
Proof.
  induction s as [|c s IH]; intros n m H; simpl in H.
  - assert (n = O /\ m = O) as [-> ->] by lia. reflexivity.
  - destruct n as [|n]; destruct m as [|m]; simpl; try reflexivity.
    + rewrite IH; [reflexivity | lia].
    + apply IH. lia.
    + apply IH. lia.
Qed.

Lemma substring_append_l (s t : string) :
  forall n m, (n + m <= String.length s)%nat ->
              String.substring n m (String.append s t) = String.substring n m s.
Proof.
  induction s as [|c s IH]; intros n m H; simpl in H.
  - assert (n = O /\ m = O) as [-> ->] by lia. now destruct t.
  - destruct n as [|n]; destruct m as [|m]; simpl; try reflexivity.
    + rewrite IH; [reflexivity | lia].
    + apply IH. lia.
    + apply IH. lia.
Qed.

Lemma append_assoc (s t u : string) :
  String.append (String.append s t) u = String.append s (String.append t u).
Proof.
  induction s as [|c s IH]; [reflexivity|].
  change (String c (String.append (String.append s t) u) =
          String c (String.append s (String.append t u))).
  now rewrite IH.
Qed.

(** The window of a long title, spelled out. *)
Lemma long_title_window (title : string) (w o : Z) :
  Z.of_nat (String.length title) > w -> 0 <= w -> 0 <= o ->
  let unit := repeat_unit title in
  let o' := if Z.of_nat (String.length unit) <=? o then 0 else o in
  get_scrollable_title title w o =
    (String.substring (Z.to_nat o') (Z.to_nat w) (String.append unit unit), o') /\
  0 <= o' < Z.of_nat (String.length unit).
Proof.
  intros Hlong Hw Ho unit o'.
  assert (HL : String.length unit = (String.length title + 3)%nat)
    by (unfold unit, repeat_unit; now rewrite length_append).
  assert (Ho' : 0 <= o' < Z.of_nat (String.length unit)).
  { subst o'. destruct (Z.leb_spec (Z.of_nat (String.length unit)) o); lia. }
  split; [|exact Ho'].
  unfold get_scrollable_title.
  destruct (Z.leb_spec (Z.of_nat (String.length title)) w); [lia|].
  fold unit. fold o'.
  set (rep := String.append unit (String.append unit unit)).
  assert (Hrep : String.length rep = (3 * String.length unit)%nat).
  { subst rep. rewrite !length_append. lia. }
  assert (Hs : slice rep o' (o' + w) =
               String.substring (Z.to_nat o') (Z.to_nat w) (String.append unit unit)).
  { unfold slice, clamp. rewrite Hrep.
    destruct (Z.ltb_spec o' 0); [lia|]. destruct (Z.ltb_spec (o' + w) 0); [lia|].
    rewrite !Z.min_l by lia.
    replace (o' + w - o') with w by lia.
    subst rep. rewrite <- append_assoc.
    apply substring_append_l. rewrite length_append. lia. }
  rewrite Hs.
  assert (Hlen : String.length (String.substring (Z.to_nat o') (Z.to_nat w)
                                  (String.append unit unit)) = Z.to_nat w).
  { apply substring_length. rewrite length_append. lia. }
  rewrite Hlen. destruct (Z.ltb_spec (Z.of_nat (Z.to_nat w)) w); [lia | reflexivity].
Qed.

(** X26. For a width and an offset that are not negative,
    [get_scrollable_title] returns exactly [min(len(title), max_width)]
    characters: a title that fits is returned as it is, with the offset
    set back to 0, and a longer one is cut to the width, never padded. *)
Theorem get_scrollable_title_length (title : string) (max_width offset : Z) :
  0 <= max_width -> 0 <= offset ->
  let r := get_scrollable_title title max_width offset in
  Z.of_nat (String.length (fst r)) = Z.min (Z.of_nat (String.length title)) max_width /\
  (Z.of_nat (String.length title) <= max_width -> r = (title, 0)).
Proof.
  intros Hw Ho. simpl.
  destruct (Z.leb_spec (Z.of_nat (String.length title)) max_width) as [Hfit|Hlong].
  - unfold get_scrollable_title.
    destruct (Z.leb_spec (Z.of_nat (String.length title)) max_width); [|lia].
    simpl. split; [lia | reflexivity].
  - destruct (long_title_window title max_width offset) as [E B]; [lia | lia | lia|].
    cbv zeta in E, B. rewrite E. clear E.
    set (o' := if Z.of_nat (String.length (repeat_unit title)) <=? offset
               then 0 else offset) in *.
    assert (HL : String.length (repeat_unit title) = (String.length title + 3)%nat)
      by (unfold repeat_unit; now rewrite length_append).
    cbn [fst]. split; [|lia].
    rewrite substring_length; [lia|]. rewrite length_append, HL. rewrite HL in B. lia.
Qed.

Lemma get_scrollable_title_length_witness :
  fst (get_scrollable_title "A very long title" 8 15) = "le   A v"%string /\
  get_scrollable_title "Short" 8 15 = ("Short"%string, 0).
Proof.
  split; [reflexivity|].
  apply (get_scrollable_title_length "Short" 8 15); [lia | lia | simpl; lia].
Defined.

(** X27. The title scroll is cyclic with period [len(title) + 3]: for a
    title longer than the width, the text shown at offset [o] is the
    window of that width, from [o], into the title and its separator
    repeated twice, and after [k] animation steps from offset 0 the
    offset is [k mod (len(title) + 3)]. *)
Theorem title_scroll_cycles (title : string) (max_width : Z) (k : nat) :
  Z.of_nat (String.length title) > max_width -> 0 <= max_width ->
  let period := Z.of_nat (String.length title) + 3 in
  let o := scroll_steps title max_width k 0 in
  o = Z.of_nat k mod period /\
  fst (get_scrollable_title title max_width o) =
    String.substring (Z.to_nat o) (Z.to_nat max_width)
      (String.append (repeat_unit title) (repeat_unit title)).
Proof.
  intros Hlong Hw period.
  assert (HL : Z.of_nat (String.length (repeat_unit title)) = period).
  { unfold repeat_unit, period. rewrite length_append. simpl. lia. }
  assert (Hk : scroll_steps title max_width k 0 = Z.of_nat k mod period).
  { induction k as [|k IH].
    - simpl. rewrite Z.mod_0_l; lia.
    - cbn [scroll_steps]. rewrite IH. unfold scroll_step.
      assert (Hs : Z.of_nat (S k) mod period = (Z.of_nat k mod period + 1) mod period).
      { rewrite Nat2Z.inj_succ, <- Z.add_1_r. now rewrite Zplus_mod_idemp_l. }
      rewrite Hs.
      assert (Hr : 0 <= Z.of_nat k mod period < period) by (apply Z.mod_pos_bound; lia).
      set (r := Z.of_nat k mod period) in *.
      destruct (long_title_window title max_width (r + 1)) as [-> _]; [lia | lia | lia|].
      cbn [snd]. rewrite HL.
      destruct (Z.leb_spec period (r + 1)).
      + replace (r + 1) with period by lia. now rewrite Z_mod_same_full.
      + now rewrite Z.mod_small by lia. }
  cbv zeta. rewrite Hk. split; [reflexivity|].
  assert (Hr : 0 <= Z.of_nat k mod period < period) by (apply Z.mod_pos_bound; lia).
  set (r := Z.of_nat k mod period) in *.
  destruct (long_title_window title max_width r) as [-> _]; [lia | lia | lia|].
  cbn [fst]. rewrite HL. destruct (Z.leb_spec period r); [lia | reflexivity].
Qed.

Lemma title_scroll_cycles_witness :
  scroll_steps "A very long title" 8 23 0 = 3 /\
  fst (get_scrollable_title "A very long title" 8 (scroll_steps "A very long title" 8 23 0))
    = "ery long"%string.
Proof.
  destruct (title_scroll_cycles "A very long title" 8 23) as [H1 H2];
    [simpl; lia | lia|].
  split; [rewrite H1; reflexivity|]. rewrite H2, H1. reflexivity.
Defined.

End TitleFacts.

(** ** Creating and editing a playlist *)

Module PlaylistEditor.

Import MusicPlayer Collections.
Export Layout(Mode, ModeMain, ModeSearch, ModeResults, ModePlaylistCreate,
              ModePlaylistEdit, ModePlaylistView).

(** The key codes of curses that the handler names. *)
Definition KEY_DOWN : Z := 258.
Definition KEY_UP : Z := 259.
Definition KEY_BACKSPACE : Z := 263.

(** The suffix that marks a confirmed name. *)
Definition CONFIRMED : string := "_CONFIRMED".

(** [s.endswith(suffix)] *)
Definition ends_with (suffix s : string) : bool :=
  (String.length suffix <=? String.length s)%nat &&
  String.eqb (String.substring (String.length s - String.length suffix)
                (String.length suffix) s) suffix.

(** [s.replace(old, new)] for a non-empty [old]. *)
Definition replace (old new s : string) : string :=
  String.concat new (Py.split old s).

(** [chr(key)] *)
Definition chr (key : Z) : string := String (ascii_of_nat (Z.to_nat key)) EmptyString.

(** The fields of the interface and of the player that the handler reads
    and writes (the status message, which is only shown, is left out). *)
Record t : Type := {
  mode : Mode;
  playlist_name : string;
  playlist_selected_tracks : list Track;
  editing_playlist_id : option string;
  selected_index : Z;
  scroll_offset : Z;
  current_viewing_playlist : option Playlist;
  favorites : list Track;
  playlists : list Playlist
}.

Definition with_name (nm : string) (e : t) : t :=
  {| mode := mode e; playlist_name := nm;
     playlist_selected_tracks := playlist_selected_tracks e;
     editing_playlist_id := editing_playlist_id e;
     selected_index := selected_index e; scroll_offset := scroll_offset e;
     current_viewing_playlist := current_viewing_playlist e;
     favorites := favorites e; playlists := playlists e |}.

Definition with_selected (i : Z) (e : t) : t :=
  {| mode := mode e; playlist_name := playlist_name e;
     playlist_selected_tracks := playlist_selected_tracks e;
     editing_playlist_id := editing_playlist_id e;
     selected_index := i; scroll_offset := scroll_offset e;
     current_viewing_playlist := current_viewing_playlist e;
     favorites := favorites e; playlists := playlists e |}.

Definition with_tracks (trs : list Track) (e : t) : t :=
  {| mode := mode e; playlist_name := playlist_name e;
     playlist_selected_tracks := trs;
     editing_playlist_id := editing_playlist_id e;
     selected_index := selected_index e; scroll_offset := scroll_offset e;
     current_viewing_playlist := current_viewing_playlist e;
     favorites := favorites e; playlists := playlists e |}.

(** The test that sends a key to the name entry. *)
Definition entering_name (e : t) : bool :=
  (Z.of_nat (length (playlist_selected_tracks e)) =? 0) &&
  negb (ends_with CONFIRMED (playlist_name e)).

(** [self.mode == "playlist_edit" and self.editing_playlist_id] *)
Definition editing (e : t) : option string :=
  match mode e, editing_playlist_id e with
  | ModePlaylistEdit, Some pid => if Py.truthy pid then Some pid else None
  | _, _ => None
  end.

(** [handle_playlist_creation_input(key)]: the redraw flag and the new
    state, or [Raise] when [favorites[selected_index]] is out of range.
    [new_id] is the identifier that [create_playlist] draws. *)
Definition handle_playlist_creation_input (new_id : string) (key : Z) (e : t)
    : result (bool * t) :=
  if entering_name e then
    if key =? 10 then
      if Py.truthy (playlist_name e)
      then Ret (true, with_selected 0
                        (with_name (String.append (playlist_name e) CONFIRMED) e))
      else Ret (false, e)
    else if key =? 27 then
      Ret (true,
           {| mode := ModeMain; playlist_name := EmptyString;
              playlist_selected_tracks := [];
              editing_playlist_id := editing_playlist_id e;
              selected_index := selected_index e; scroll_offset := scroll_offset e;
              current_viewing_playlist := current_viewing_playlist e;
              favorites := favorites e; playlists := playlists e |})
    else if (key =? KEY_BACKSPACE) || (key =? 127) then
      Ret (false, with_name (Title.slice (playlist_name e) 0 (-1)) e)
    else if (32 <=? key) && (key <=? 126) then
      Ret (false, with_name (String.append (playlist_name e) (chr key)) e)
    else Ret (false, e)
  else
    if key =? KEY_UP then
      Ret (false, with_selected (Z.max 0 (selected_index e - 1)) e)
    else if key =? KEY_DOWN then
      Ret (false, with_selected
                    (Z.min (Z.of_nat (length (favorites e)) - 1) (selected_index e + 1)) e)
    else if key =? 32 then
      if selected_index e <? Z.of_nat (length (favorites e)) then
        match Py.index (favorites e) (selected_index e) with
        | None => Raise
        | Some fav =>
            if existsb (has_id (track_id fav)) (playlist_selected_tracks e)
            then Ret (false,
                      with_tracks
                        (List.filter (fun t => negb (has_id (track_id fav) t))
                           (playlist_selected_tracks e)) e)
            else Ret (false, with_tracks (playlist_selected_tracks e ++ [fav]) e)
        end
      else Ret (false, e)
    else if key =? 10 then
      match playlist_selected_tracks e with
      | [] => Ret (false, e)
      | _ :: _ =>
          let clean_name := replace CONFIRMED EmptyString (playlist_name e) in
          match editing e with
          | Some pid =>
              let '(success, pls) :=
                update_playlist pid clean_name (playlist_selected_tracks e) (playlists e) in
              if success then
                Ret (true,
                     {| mode := match lookup pid pls with
                                | Some _ => ModePlaylistView
                                | None => ModeMain
                                end;
                        playlist_name := EmptyString;
                        playlist_selected_tracks := [];
                        editing_playlist_id := None;
                        selected_index := 0; scroll_offset := scroll_offset e;
                        current_viewing_playlist :=
                          match lookup pid pls with
                          | Some p => Some p
                          | None => current_viewing_playlist e
                          end;
                        favorites := favorites e; playlists := pls |})
              else Ret (false, e)
          | None =>
              let '(success, pls) :=
                create_playlist new_id clean_name (playlist_selected_tracks e)
                  (playlists e) in
              if success then
                Ret (true,
                     {| mode := ModeMain; playlist_name := EmptyString;
                        playlist_selected_tracks := [];
                        editing_playlist_id := editing_playlist_id e;
                        selected_index := 0; scroll_offset := scroll_offset e;
                        current_viewing_playlist := current_viewing_playlist e;
                        favorites := favorites e; playlists := pls |})
              else Ret (false, e)
          end
      end
    else if (key =? 68) || (key =? 100) then
      match editing e with
      | Some pid =>
          Ret (true,
               {| mode := ModeMain; playlist_name := EmptyString;
                  playlist_selected_tracks := [];
                  editing_playlist_id := None;
                  selected_index := 0; scroll_offset := 0;
                  current_viewing_playlist := None;
                  favorites := favorites e;
                  playlists := snd (delete_playlist pid (playlists e)) |})
      | None => Ret (false, e)
      end
    else if key =? 27 then
      Ret (true,
           {| mode := match mode e with
                      | ModePlaylistEdit => ModePlaylistView
                      | _ => ModeMain
                      end;
              playlist_name := EmptyString;
              playlist_selected_tracks := [];
              editing_playlist_id := None;
              selected_index := selected_index e; scroll_offset := scroll_offset e;
              current_viewing_playlist := current_viewing_playlist e;
              favorites := favorites e; playlists := playlists e |})
    else Ret (false, e).

End PlaylistEditor.

Module EditorFacts.

Import MusicPlayer Collections PlaylistEditor.

Lemma substring_full (s : string) : String.substring 0 (String.length s) s = s.
Proof. induction s as [|c s IH]; simpl; [reflexivity | now rewrite IH]. Qed.

(** [(s + c)[:-1]] is [s]. *)
Lemma slice_drops_last (s : string) (c : ascii) :
  Title.slice (String.append s (String c EmptyString)) 0 (-1) = s.
Proof.
  unfold Title.slice, Title.clamp. rewrite TitleFacts.length_append. simpl String.length.
  destruct (Z.ltb_spec 0 0); [lia|]. destruct (Z.ltb_spec (-1) 0); [|lia].
  replace (Z.to_nat (Z.min 0 (Z.of_nat (String.length s + 1)))) with O by lia.
  replace (Z.to_nat (Z.max 0 (-1 + Z.of_nat (String.length s + 1)) -
                     Z.min 0 (Z.of_nat (String.length s + 1))))
    with (String.length s) by lia.
  rewrite TitleFacts.substring_append_l by lia. apply substring_full.
Qed.

Lemma with_tracks_back (e : t) (l : list Track) :
  with_tracks (playlist_selected_tracks e) (with_tracks l e) = e.
Proof. now destruct e. Qed.

Lemma with_name_back (e : t) (nm : string) :
  with_name (playlist_name e) (with_name nm e) = e.
Proof. now destruct e. Qed.

(** X28. While tracks are being selected, the space bar on a favorite
    that is not selected appends it to the selection, and the space bar
    again takes it out: two presses leave the editor exactly as it
    was. *)
Theorem toggle_track_twice (new_id : string) (e : t) (fav : Track) :
  entering_name e = false ->
  0 <= selected_index e ->
  favorites e !! Z.to_nat (selected_index e) = Some fav ->
  existsb (has_id (track_id fav)) (playlist_selected_tracks e) = false ->
  let e1 := with_tracks (playlist_selected_tracks e ++ [fav]) e in
  handle_playlist_creation_input new_id 32 e = Ret (false, e1) /\
  handle_playlist_creation_input new_id 32 e1 = Ret (false, e).
Proof.
  intros Hsel H0 Hfav Hnot e1.
  assert (Hlt : selected_index e < Z.of_nat (length (favorites e))).
  { apply lookup_lt_Some in Hfav. lia. }
  assert (Hidx : Py.index (favorites e) (selected_index e) = Some fav).
  { destruct (PlayerFacts.index_in_range (favorites e) (selected_index e) (conj H0 Hlt))
      as [-> _]. exact Hfav. }
  split.
  - unfold handle_playlist_creation_input. rewrite Hsel. simpl.
    destruct (Z.ltb_spec (selected_index e) (Z.of_nat (length (favorites e)))); [|lia].
    now rewrite Hidx, Hnot.
  - unfold handle_playlist_creation_input.
    assert (Hsel1 : entering_name e1 = false).
    { unfold entering_name, e1. simpl. rewrite length_app. simpl.
      destruct (Z.eqb_spec (Z.of_nat (length (playlist_selected_tracks e) + 1)) 0);
        [lia | reflexivity]. }
    rewrite Hsel1. simpl.
    destruct (Z.ltb_spec (selected_index e) (Z.of_nat (length (favorites e)))); [|lia].
    rewrite Hidx.
    assert (Hin : existsb (has_id (track_id fav)) (playlist_selected_tracks e ++ [fav])
                  = true).
    { rewrite existsb_app. simpl. unfold has_id at 2. rewrite String.eqb_refl.
      now rewrite orb_true_r. }
    rewrite Hin. rewrite List.filter_app. simpl.
    assert (Hself : has_id (track_id fav) fav = true)
      by (unfold has_id; apply String.eqb_refl).
    rewrite Hself. simpl. rewrite app_nil_r.
    rewrite CollectionFacts.filter_all.
    + unfold e1. now rewrite with_tracks_back.
    + rewrite <- Hnot. clear.
      induction (playlist_selected_tracks e) as [|a l IH]; simpl; [reflexivity|].
      now rewrite negb_involutive, IH.
Qed.

(** X29. While tracks are being selected, Enter with no track selected
    changes nothing.  With tracks selected and no playlist being edited,
    Enter creates the playlist under the name without its confirmation
    mark, appends it to the collection and returns to the home page with
    the entry buffers emptied; when that cleaned name is empty nothing is
    created and nothing changes. *)
Theorem confirm_playlist (new_id : string) (e : t) :
  entering_name e = false ->
  let clean_name := replace CONFIRMED EmptyString (playlist_name e) in
  (playlist_selected_tracks e = [] ->
     handle_playlist_creation_input new_id 10 e = Ret (false, e)) /\
  (playlist_selected_tracks e <> [] -> editing e = None ->
     (Py.truthy clean_name = false ->
        handle_playlist_creation_input new_id 10 e = Ret (false, e)) /\
     (Py.truthy clean_name = true ->
        handle_playlist_creation_input new_id 10 e =
        Ret (true,
             {| mode := ModeMain; playlist_name := EmptyString;
                playlist_selected_tracks := [];
                editing_playlist_id := editing_playlist_id e;
                selected_index := 0; scroll_offset := scroll_offset e;
                current_viewing_playlist := current_viewing_playlist e;
                favorites := favorites e;
                playlists := playlists e ++
                  [{| playlist_id := new_id; name := clean_name;
                      tracks := playlist_selected_tracks e |}] |}))).
Proof.
  intros Hsel clean_name. unfold handle_playlist_creation_input. rewrite Hsel. simpl.
  split.
  - now intros ->.
  - intros Hne Hed. rewrite Hed.
    destruct (playlist_selected_tracks e) as [|t0 rest] eqn:Htr; [contradiction|].
    fold clean_name. unfold create_playlist, rejected.
    split; intros Hc; rewrite Hc; reflexivity.
Qed.

(** X30. While the name is being entered, a printable key appends its
    character and Enter on an empty name changes nothing.  Backspace
    then takes the character off again, giving the state before the key,
    unless the name now ends in the confirmation mark [_CONFIRMED]: the
    editor is then already selecting tracks and Backspace no longer
    edits the name. *)
Theorem name_entry_editing (new_id : string) (key : Z) (e : t) :
  entering_name e = true ->
  32 <= key <= 126 ->
  let e1 := with_name (String.append (playlist_name e) (chr key)) e in
  handle_playlist_creation_input new_id key e = Ret (false, e1) /\
  (playlist_name e = EmptyString ->
     handle_playlist_creation_input new_id 10 e = Ret (false, e)) /\
  (ends_with CONFIRMED (playlist_name e1) = false ->
     handle_playlist_creation_input new_id 127 e1 = Ret (false, e) /\
     handle_playlist_creation_input new_id KEY_BACKSPACE e1 = Ret (false, e)) /\
  (ends_with CONFIRMED (playlist_name e1) = true ->
     handle_playlist_creation_input new_id 127 e1 = Ret (false, e1) /\
     handle_playlist_creation_input new_id KEY_BACKSPACE e1 = Ret (false, e1)).
Proof.
  intros Hent Hkey e1.
  assert (Hlen : (Z.of_nat (length (playlist_selected_tracks e)) =? 0) = true).
  { unfold entering_name in Hent. now apply andb_true_iff in Hent as [H _]. }
  split; [|split; [|split]].
  - unfold handle_playlist_creation_input. rewrite Hent.
    destruct (Z.eqb_spec key 10); [lia|]. destruct (Z.eqb_spec key 27); [lia|].
    unfold KEY_BACKSPACE.
    destruct (Z.eqb_spec key 263); [lia|]. destruct (Z.eqb_spec key 127); [lia|].
    simpl. destruct (Z.leb_spec 32 key); [|lia]. destruct (Z.leb_spec key 126); [|lia].
    reflexivity.
  - intros Hempty. unfold handle_playlist_creation_input. rewrite Hent. simpl.
    now rewrite Hempty.
  - intros Hno.
    assert (Hent1 : entering_name e1 = true).
    { unfold entering_name. unfold e1 at 1. simpl playlist_selected_tracks.
      now rewrite Hlen, Hno. }
    assert (Hback : with_name (Title.slice (playlist_name e1) 0 (-1)) e1 = e).
    { unfold e1. simpl playlist_name. unfold chr. rewrite slice_drops_last.
      apply with_name_back. }
    unfold handle_playlist_creation_input. rewrite Hent1.
    change (127 =? 10) with false. change (127 =? 27) with false.
    change (KEY_BACKSPACE =? 10) with false. change (KEY_BACKSPACE =? 27) with false.
    change ((127 =? KEY_BACKSPACE) || (127 =? 127)) with true.
    change ((KEY_BACKSPACE =? KEY_BACKSPACE) || (KEY_BACKSPACE =? 127)) with true.
    cbv iota. now rewrite Hback.
  - intros Hyes.
    assert (Hent1 : entering_name e1 = false).
    { unfold entering_name. rewrite Hyes. simpl. apply andb_false_r. }
    unfold handle_playlist_creation_input. rewrite Hent1. now simpl.
Qed.

(** *** Runs of the editor *)

Import Samples.

(** The editor after the name "Mix 2" has been confirmed, with two
    favorites to choose from. *)
Definition choosing : t :=
  {| mode := ModePlaylistCreate; playlist_name := "Mix 2_CONFIRMED";
     playlist_selected_tracks := []; editing_playlist_id := None;
     selected_index := 1; scroll_offset := 0; current_viewing_playlist := None;
     favorites := [track_a; track_b]; playlists := [mix] |}.

(** The editor while a name is being typed. *)
Definition typing (nm : string) : t :=
  {| mode := ModePlaylistCreate; playlist_name := nm;
     playlist_selected_tracks := []; editing_playlist_id := None;
     selected_index := 0; scroll_offset := 0; current_viewing_playlist := None;
     favorites := [track_a; track_b]; playlists := [mix] |}.

Lemma toggle_track_twice_witness :
  handle_playlist_creation_input "p9" 32 choosing =
    Ret (false, with_tracks [track_b] choosing) /\
  handle_playlist_creation_input "p9" 32 (with_tracks [track_b] choosing) =
    Ret (false, choosing).
Proof.
  apply (toggle_track_twice "p9" choosing track_b); [reflexivity | simpl; lia |
                                                     reflexivity | reflexivity].
Defined.

Lemma confirm_playlist_witness :
  handle_playlist_creation_input "p9" 10 choosing = Ret (false, choosing) /\
  exists e',
    handle_playlist_creation_input "p9" 10 (with_tracks [track_b] choosing) = Ret (true, e') /\
    playlists e' = [mix; {| playlist_id := "p9"; name := "Mix 2"; tracks := [track_b] |}] /\
    mode e' = ModeMain.
Proof.
  split.
  - apply (proj1 (confirm_playlist "p9" choosing eq_refl)). reflexivity.
  - eexists. split.
    + apply (proj2 (confirm_playlist "p9" (with_tracks [track_b] choosing) eq_refl));
        [discriminate | reflexivity | reflexivity].
    + split; reflexivity.
Defined.

Lemma name_entry_editing_witness :
  handle_playlist_creation_input "p9" 127
    (with_name "Mix" (typing "Mi")) = Ret (false, typing "Mi") /\
  handle_playlist_creation_input "p9" 127
    (with_name "X_CONFIRMED" (typing "X_CONFIRME")) =
    Ret (false, with_name "X_CONFIRMED" (typing "X_CONFIRME")).
Proof.
  split.
  - destruct (name_entry_editing "p9" 120 (typing "Mi") eq_refl) as (_ & _ & H & _);
      [lia|]. apply H. reflexivity.
  - destruct (name_entry_editing "p9" 68 (typing "X_CONFIRME") eq_refl) as (_ & _ & _ & H);
      [lia|]. apply H. reflexivity.
Defined.

End EditorFacts.
